(** * A shallow embedding of the CS162 shell (hw2/shell.c) and of the
      list-backed word counter (hw1/word_count_l.c).

    The C code is translated function by function.  System calls are
    answered by an explicit operating-system record; every call that is
    visible outside the process is appended to a trace, so that statements
    such as "no child is spawned" or "the tokens are destroyed before the
    process exits" become statements about lists of events. *)

From Stdlib Require Import ZArith String Ascii List.
From stdpp Require Import base tactics option list gmap strings pretty.

Local Open Scope string_scope.
Local Open Scope list_scope.
Local Open Scope Z_scope.

(** ** C strings and pointers

    A [char *] is an [option string]: [None] is the null pointer, [Some s]
    points to the NUL-terminated string [s]. *)

Definition cptr := option string.

(** The newline character. *)
Definition nl : string := String (ascii_of_nat 10) EmptyString.

(** ** The errno value of a bad address (Linux numbering). *)

Definition EFAULT : Z := 14.

(** ** Events: what the process does that is visible from outside. *)

Inductive stream := stdout | stderr.

Inductive event :=
| Write (fd : stream) (s : string)      (* bytes sent to a stdio stream *)
| WriteNull (fd : stream)               (* a null pointer handed to a %s conversion *)
| Getenv (name : string)
| Stat (path : cptr)
| Chdir (path : cptr)
| Getcwd
| Fork (ret : Z)
| Waitpid (pid : Z)
| Execv (path : cptr) (argv : list cptr)
| TokensDestroy (toks : list string).

(** ** The operating system as seen by one process.

    The answers of the kernel and of libc are fields of a record: the
    shell never inspects more than these answers.  Path lookups depend on
    the working directory, which [chdir] changes. *)

Record OS := mkOS {
  environ      : gmap string string;            (* getenv *)
  fs_stat      : string -> string -> bool;      (* cwd, path: stat() != -1 *)
  fs_stat_errno: string -> string -> Z;         (* errno when it is -1 *)
  fs_chdir     : string -> string -> Z + string;(* cwd, path: errno or new cwd *)
  fs_getcwd    : string -> Z + string;          (* cwd: errno or its name *)
  fork_ret     : Z;                             (* what fork() returns here *)
  execv_errno  : string -> option Z;            (* None: the image is replaced *)
  strerror     : Z -> string                    (* libc's message table *)
}.

(** The mutable part of the process: its working directory, [errno] and the
    global [shell_is_interactive] of shell.c. *)

Record proc := mkProc {
  os : OS;
  cwd : string;
  errno : Z;
  shell_is_interactive : bool
}.

Definition set_cwd (d : string) (p : proc) : proc :=
  mkProc (os p) d (errno p) (shell_is_interactive p).
Definition set_errno (e : Z) (p : proc) : proc :=
  mkProc (os p) (cwd p) e (shell_is_interactive p).

(** ** The monad of shell code

    A computation either returns a value in a new process state, or the
    process stops: [exit]/return from [main], a successful [execv] (the
    image is replaced), or a fault (a null pointer dereferenced by user
    code). *)

Inductive outcome (A : Type) : Type :=
| Ret (a : A) (p : proc)
| Exited (status : Z)
| Replaced
| Fault.
Arguments Ret {A} a p.
Arguments Exited {A} status.
Arguments Replaced {A}.
Arguments Fault {A}.

Definition sh (A : Type) : Type := proc -> list event * outcome A.

Definition ret {A} (a : A) : sh A := fun p => ([], Ret a p).

Definition bind {A B} (m : sh A) (f : A -> sh B) : sh B :=
  fun p =>
    match m p with
    | (t1, Ret a p') => let '(t2, o) := f a p' in (t1 ++ t2, o)
    | (t1, Exited s) => (t1, Exited s)
    | (t1, Replaced) => (t1, Replaced)
    | (t1, Fault) => (t1, Fault)
    end.

Declare Scope sh_scope.
Delimit Scope sh_scope with sh.
Notation "x <- c1 ;; c2" := (bind c1 (fun x => c2))
  (at level 100, c1 at next level, right associativity) : sh_scope.
Notation "c1 ;; c2" := (bind c1 (fun _ => c2))
  (at level 100, right associativity) : sh_scope.
Local Open Scope sh_scope.

Definition emit (e : event) : sh unit := fun p => ([e], Ret tt p).
Definition get_proc : sh proc := fun p => ([], Ret p p).
Definition put_proc (q : proc) : sh unit := fun _ => ([], Ret tt q).
Definition fault {A} : sh A := fun _ => ([], Fault).
Definition exit_ {A} (status : Z) : sh A := fun _ => ([], Exited status).

Definition trace_of {A} (r : list event * outcome A) : list event := fst r.
Definition outcome_of {A} (r : list event * outcome A) : outcome A := snd r.

(** ** libc and system calls *)

Definition getenv (name : string) : sh cptr :=
  emit (Getenv name) ;;
  p <- get_proc ;;
  ret (environ (os p) !! name).

(** stat(2): a null path is outside the address space, EFAULT. *)
Definition stat (path : cptr) : sh Z :=
  emit (Stat path) ;;
  p <- get_proc ;;
  match path with
  | None => put_proc (set_errno EFAULT p) ;; ret (-1)
  | Some f =>
      if fs_stat (os p) (cwd p) f then ret 0
      else put_proc (set_errno (fs_stat_errno (os p) (cwd p) f) p) ;; ret (-1)
  end.

(** chdir(2): a null path is outside the address space, EFAULT. *)
Definition chdir (path : cptr) : sh Z :=
  emit (Chdir path) ;;
  p <- get_proc ;;
  match path with
  | None => put_proc (set_errno EFAULT p) ;; ret (-1)
  | Some d =>
      match fs_chdir (os p) (cwd p) d with
      | inl e => put_proc (set_errno e p) ;; ret (-1)
      | inr d' => put_proc (set_cwd d' p) ;; ret 0
      end
  end.

(** getcwd(NULL, 0): a fresh string, or NULL with errno set. *)
Definition getcwd : sh cptr :=
  emit Getcwd ;;
  p <- get_proc ;;
  match fs_getcwd (os p) (cwd p) with
  | inl e => put_proc (set_errno e p) ;; ret None
  | inr d => ret (Some d)
  end.

Definition fork : sh Z :=
  p <- get_proc ;;
  emit (Fork (fork_ret (os p))) ;;
  ret (fork_ret (os p)).

Definition waitpid (pid : Z) : sh Z :=
  emit (Waitpid pid) ;; ret pid.

(** execv returns only on failure. *)
Definition execv (path : cptr) (argv : list cptr) : sh Z :=
  emit (Execv path argv) ;;
  p <- get_proc ;;
  match path with
  | None => put_proc (set_errno EFAULT p) ;; ret (-1)
  | Some f =>
      match execv_errno (os p) f with
      | None => fun _ => ([], Replaced)
      | Some e => put_proc (set_errno e p) ;; ret (-1)
      end
  end.

(** perror(s): "s: message\n" when s is a non-empty string, else just the
    message. *)
Definition perror (s : cptr) : sh unit :=
  p <- get_proc ;;
  let msg := strerror (os p) (errno p) +:+ nl in
  match s with
  | Some (String c r) => emit (Write stderr (String c r +:+ ": " +:+ msg))
  | _ => emit (Write stderr msg)
  end.

(** fprintf(fd, "<pre>%s<post>", a): a null argument to %s is recorded as
    such (C leaves it undefined). *)
Definition fprintf_s (fd : stream) (pre : string) (a : cptr) (post : string)
  : sh unit :=
  match a with
  | Some s => emit (Write fd (pre +:+ s +:+ post))
  | None => emit (WriteNull fd)
  end.

(** strcmp dereferences both arguments: [None] is the fault. *)
Definition strcmp (a b : cptr) : option Z :=
  match a, b with
  | Some x, Some y =>
      Some (match String.compare x y with Eq => 0 | Lt => -1 | Gt => 1 end)
  | _, _ => None
  end.

(** ** tokenizer.h *)

(** Modelled from the spec: tokenizer.c is not part of the sources.  A
    Token Sequence is "an ordered, index-addressable sequence of owned
    strings ... length queryable"; the accessor yields an absent (null)
    name past the end ("a null/absent name (empty token sequence)"). *)
Definition tokens := list string.
Definition tokens_get_length (t : tokens) : nat := length t.
Definition tokens_get_token (t : tokens) (n : nat) : cptr := t !! n.
Definition tokens_destroy (t : tokens) : sh unit := emit (TokensDestroy t).

(** ** shell.c *)

(** Function pointers of type [cmd_fun_t *]. *)
Inductive cmd_fun_t := cmd_help_p | cmd_exit_p | cmd_pwd_p | cmd_cd_p.

Record fun_desc_t := mk_fun_desc {
  fun_ : cmd_fun_t;
  cmd : string;
  doc : string
}.

Definition cmd_table : list fun_desc_t :=
  [ mk_fun_desc cmd_help_p "?" "show this help menu";
    mk_fun_desc cmd_exit_p "exit" "exit the command shell";
    mk_fun_desc cmd_pwd_p "pwd" "print working directory";
    mk_fun_desc cmd_cd_p "cd" "change working directory" ].

(** lookup: [lookup_from i tbl] is the loop from index [i] over the rest
    [tbl] of the table.  [cmd && strcmp(...) == 0] evaluates strcmp only
    when cmd is not null. *)
Fixpoint lookup_from (i : Z) (tbl : list fun_desc_t) (c : cptr) : sh Z :=
  match tbl with
  | [] => ret (-1)
  | d :: tbl' =>
      hit <- (match c with
              | None => ret false
              | Some _ =>
                  match strcmp (Some (cmd d)) c with
                  | Some r => ret (r =? 0)
                  | None => fault
                  end
              end) ;;
      if (hit : bool) then ret i else lookup_from (i + 1) tbl' c
  end.

Definition lookup (c : cptr) : sh Z := lookup_from 0 cmd_table c.

(** Prints a helpful description for the given command. *)
Fixpoint cmd_help_loop (tbl : list fun_desc_t) : sh unit :=
  match tbl with
  | [] => ret tt
  | d :: tbl' =>
      emit (Write stdout (cmd d +:+ " - " +:+ doc d +:+ nl)) ;;
      cmd_help_loop tbl'
  end.

Definition cmd_help (_ : tokens) : sh Z :=
  cmd_help_loop cmd_table ;;
  ret 1.

(** Exits this shell. *)
Definition cmd_exit (t : tokens) : sh Z :=
  tokens_destroy t ;;
  exit_ 0.

Definition cmd_pwd (_ : tokens) : sh Z :=
  c <- getcwd ;;
  fprintf_s stdout "" c nl ;;
  ret 0.

Definition cmd_cd (t : tokens) : sh Z :=
  let argc := tokens_get_length t in
  if (2 <? argc)%nat then
    emit (Write stderr ("cd: too many arguments" +:+ nl)) ;;
    ret 0
  else if (argc =? 2)%nat then
    r <- chdir (tokens_get_token t 1) ;;
    if r =? 0 then ret 0
    else perror (Some "cd") ;; ret 0
  else
    h <- getenv "HOME" ;;
    r <- chdir h ;;
    if r =? 0 then ret 0
    else perror (Some "cd") ;; ret 0.

(** Calling through a [cmd_fun_t *]. *)
Definition call (f : cmd_fun_t) : tokens -> sh Z :=
  match f with
  | cmd_help_p => cmd_help
  | cmd_exit_p => cmd_exit
  | cmd_pwd_p => cmd_pwd
  | cmd_cd_p => cmd_cd
  end.

(** *** strtok, as the C library defines it

    The hidden static pointer of strtok is the explicit [olds]. *)

Fixpoint is_delim (delim : string) (c : ascii) : bool :=
  match delim with
  | EmptyString => false
  | String d r => if Ascii.eqb c d then true else is_delim r c
  end.

(** [s + strspn(s, delim)] *)
Fixpoint skip_delims (delim s : string) : string :=
  match s with
  | EmptyString => EmptyString
  | String c r => if is_delim delim c then skip_delims delim r else s
  end.

(** The token that starts at [s], and what follows the delimiter that ends
    it ([None] when the string ends first). *)
Fixpoint scan_token (delim s : string) : string * option string :=
  match s with
  | EmptyString => (EmptyString, None)
  | String c r =>
      if is_delim delim c then (EmptyString, Some r)
      else let '(t, k) := scan_token delim r in (String c t, k)
  end.

Definition strtok (str : cptr) (delim : string) (olds : string)
  : cptr * string :=
  let s := skip_delims delim (match str with Some s => s | None => olds end) in
  match s with
  | EmptyString => (None, EmptyString)
  | String _ _ =>
      let '(tok, k) := scan_token delim s in
      (Some tok, match k with Some r => r | None => EmptyString end)
  end.

(** The for loop of search_path.  Every round consumes at least one
    character of the copy of PATH, so [fuel] above its length is never
    used up; running out is a fault of the model.  The heap is not
    modelled: malloc is taken to succeed (shell.c never checks it) and
    free leaves no trace. *)
Fixpoint search_path_loop (fuel : nat) (command : string)
    (token : cptr) (olds : string) : sh cptr :=
  match token with
  | None => ret None
  | Some tok =>
      match fuel with
      | O => fault
      | S fuel' =>
          let pathname := tok +:+ "/" +:+ command in
          r <- stat (Some pathname) ;;
          if negb (r =? -1) then
            ret (Some pathname)
          else
            let '(token', olds') := strtok None ":" olds in
            search_path_loop fuel' command token' olds'
      end
  end.

Definition search_path (command : string) : sh cptr :=
  path_orig <- getenv "PATH" ;;
  match path_orig with
  | None => ret None
  | Some path =>
      let '(token, olds) := strtok (Some path) ":" "" in
      search_path_loop (S (String.length path)) command token olds
  end.

(** The argument vector built in the child: every token, then NULL. *)
Definition build_args (t : tokens) : list cptr :=
  map (tokens_get_token t) (seq 0 (tokens_get_length t)) ++ [None].

(** fork, then wait in the parent and exec in the child: both external
    branches of main have this shape. *)
Definition spawn (path : cptr) (t : tokens) : sh unit :=
  pid <- fork ;;
  if negb (pid =? 0) then
    waitpid pid ;;
    ret tt
  else
    execv path (build_args t) ;;
    perror path ;;
    exit_ 1.

(** Lines 171-205: what main does with a line that is no builtin. *)
Definition external (t : tokens) : sh unit :=
  found <- (if (0 <? tokens_get_length t)%nat
            then r <- stat (tokens_get_token t 0) ;; ret (negb (r =? -1))
            else ret false) ;;
  if (found : bool) then
    spawn (tokens_get_token t 0) t
  else
    pathname <- (if (0 <? tokens_get_length t)%nat
                 then match tokens_get_token t 0 with
                      | Some c => search_path c
                      | None => fault
                      end
                 else ret None) ;;
    match pathname with
    | Some f => spawn (Some f) t
    | None =>
        if (tokens_get_length t =? 0)%nat then ret tt
        else fprintf_s stderr "" (tokens_get_token t 0)
                       (": command not found" +:+ nl)
    end.

(** Lines 166-205: builtin first, external command otherwise. *)
Definition dispatch (t : tokens) : sh unit :=
  fundex <- lookup (tokens_get_token t 0) ;;
  if 0 <=? fundex then
    match cmd_table !! Z.to_nat fundex with
    | Some d => call (fun_ d) t ;; ret tt
    | None => fault
    end
  else external t.

(** The body of the while loop of main, for the tokens of one line;
    [line_num] is the prompt counter (a C int, taken below INT_MAX), and
    the new one is returned. *)
Definition epilogue (line_num : Z) (t : tokens) : sh Z :=
  p <- get_proc ;;
  line_num' <- (if shell_is_interactive p
                then emit (Write stdout (pretty (line_num + 1) +:+ ": ")) ;;
                     ret (line_num + 1)
                else ret line_num) ;;
  tokens_destroy t ;;
  ret line_num'.

Definition loop_body (line_num : Z) (t : tokens) : sh Z :=
  dispatch t ;;
  epilogue line_num t.

(** main after init_shell: [tokenize] is the external tokenizer and
    [lines] are the successive results of fgets until end of input. *)
Fixpoint main_loop (tokenize : string -> tokens) (line_num : Z)
    (lines : list string) : sh Z :=
  match lines with
  | [] => exit_ 0
  | line :: rest =>
      n <- loop_body line_num (tokenize line) ;;
      main_loop tokenize n rest
  end.

Definition main (tokenize : string -> tokens) (lines : list string) : sh Z :=
  p <- get_proc ;;
  (if shell_is_interactive p
   then emit (Write stdout (pretty 0 +:+ ": "))
   else ret tt) ;;
  main_loop tokenize 0 lines.

(** * init_shell *)

Definition STDIN_FILENO : Z := 0.

(** SIGTTIN (Linux numbering). *)
Definition SIGTTIN : Z := 21.

(** What the terminal and the kernel answer to init_shell.  tcgetpgrp is
    asked again after every SIGTTIN stop: [tcgetpgrp_answers] are its
    successive results. *)
Record terminal := mk_terminal {
  isatty : Z -> bool;
  getpgrp : Z;
  getpid : Z;
  tcgetpgrp_answers : list Z;
  tcgetattr : Z -> Z
}.

(** The calls of init_shell that act on the outside. *)
Inductive tty_call :=
| Kill (pid sig : Z)
| Tcsetpgrp (fd pgid : Z)
| Tcgetattr (fd : Z).

(** The globals of shell.c ([is_interactive] is shell_is_interactive);
    static storage starts zeroed. *)
Record globals := mk_globals {
  shell_terminal : Z;
  is_interactive : bool;
  shell_pgid : Z;
  shell_tmodes : Z
}.

(** The while loop: the signals sent, and whether the loop was left with
    the answers at hand. *)
Fixpoint foreground_loop (pgrp : Z) (answers : list Z)
  : list tty_call * bool :=
  match answers with
  | [] => ([], false)
  | a :: rest =>
      if negb (a =? pgrp) then
        let '(calls, out) := foreground_loop pgrp rest in
        (Kill (- pgrp) SIGTTIN :: calls, out)
      else ([], true)
  end.

(** init_shell: its calls, and the globals once it has returned. *)
Definition init_shell (tm : terminal) : list tty_call * option globals :=
  let terminal_fd := STDIN_FILENO in
  let interactive := isatty tm terminal_fd in
  if interactive then
    let '(calls, out) :=
      foreground_loop (getpgrp tm) (tcgetpgrp_answers tm) in
    if out then
      let pgid := getpid tm in
      (calls ++ [Tcsetpgrp terminal_fd pgid; Tcgetattr terminal_fd],
       Some (mk_globals terminal_fd true pgid (tcgetattr tm terminal_fd)))
    else (calls, None)
  else ([], Some (mk_globals terminal_fd false 0 0)).

(** * word_count_l.c *)

(** Modelled from the spec: word_count.h and the Pintos list are not part
    of the sources.  The table is "a list-backed frequency table with
    linear lookup, insertion": entries with a word and a count, kept in a
    list from front to back.  A pointer to an entry is its position. *)
Record word_count_t := mk_wc {
  word : string;
  count : Z
}.

Abbreviation word_count_list_t := (list word_count_t).

Definition init_words : word_count_list_t := [].

Definition len_words (wclist : word_count_list_t) : nat := length wclist.

(** The entries from position [i] on, searched front to back. *)
Fixpoint find_word_from (i : nat) (l : list word_count_t) (w : string)
  : option nat :=
  match l with
  | [] => None
  | wc :: l' =>
      match strcmp (Some (word wc)) (Some w) with
      | Some 0 => Some i
      | _ => find_word_from (S i) l' w
      end
  end.

Definition find_word (wclist : word_count_list_t) (w : string) : option nat :=
  find_word_from 0 wclist w.

(** What add_word leaves behind: the list, the returned pointer, and the
    contexts of its perror calls. *)
Record add_result := mk_add {
  new_list : word_count_list_t;
  returned : option nat;
  perrors : list string
}.

(** [malloc_ok] tells whether the allocation of a new entry succeeds.
    The count is a C int: the increment is taken below INT_MAX. *)
Definition add_word (malloc_ok : bool) (wclist : word_count_list_t)
    (w : string) : add_result :=
  match find_word wclist w with
  | Some i =>
      mk_add (alter (fun wc => mk_wc (word wc) (count wc + 1)) i wclist)
             (Some i) []
  | None =>
      if malloc_ok then
        mk_add (wclist ++ [mk_wc w 1]) (Some (length wclist)) []
      else
        mk_add wclist None ["malloc"]
  end.

(** The lists that init_words and any number of add_word calls produce. *)
Inductive built : word_count_list_t -> Prop :=
| built_init : built init_words
| built_add (malloc_ok : bool) (l : word_count_list_t) (w : string) :
    built l -> built (new_list (add_word malloc_ok l w)).

(** * Vocabulary of the statements *)

Definition builtin_names : list string := map cmd cmd_table.

(** The events of external-command dispatch: the direct-path check, the
    PATH search and child creation. *)
Definition external_event (e : event) : bool :=
  match e with
  | Stat _ | Fork _ | Waitpid _ | Execv _ _ => true
  | Getenv n => String.eqb n "PATH"
  | _ => false
  end.

(** What [chdir(target)] followed by cd's error report amounts to. *)
Definition cd_report (p : proc) (target : cptr) : list event * outcome Z :=
  match target with
  | None =>
      ([Chdir None; Write stderr ("cd: " +:+ strerror (os p) EFAULT +:+ nl)],
       Ret 0 (set_errno EFAULT p))
  | Some d =>
      match fs_chdir (os p) (cwd p) d with
      | inr d' => ([Chdir (Some d)], Ret 0 (set_cwd d' p))
      | inl e =>
          ([Chdir (Some d); Write stderr ("cd: " +:+ strerror (os p) e +:+ nl)],
           Ret 0 (set_errno e p))
      end
  end.

Definition prompt_events (interactive : bool) (n : Z) : list event :=
  if interactive then [Write stdout (pretty n +:+ ": ")] else [].

Definition next_line_num (interactive : bool) (n : Z) : Z :=
  if interactive then n + 1 else n.

(** A concrete machine for the examples: /bin and /usr/bin hold a few
    programs, HOME is not set, and the working directory /gone has been
    removed under the shell. *)
Definition demo_files : list string :=
  ["/bin/echo"; "/usr/bin/env"; "/bin/env"; "/tmp"].

Definition demo_os (fork_result : Z) : OS :=
  mkOS (<["PATH" := "/opt/bin::/usr/bin:/bin"]> ∅)
       (fun _ path => bool_decide (path ∈ demo_files))
       (fun _ _ => 2)
       (fun _ path => if bool_decide (path = "/tmp") then inr "/tmp" else inl 2)
       (fun d => if bool_decide (d = "/gone") then inl 2 else inr d)
       fork_result
       (fun path => if bool_decide (path = "/tmp") then Some 13 else None)
       (fun e => if e =? 2 then "No such file or directory"
                 else if e =? 13 then "Permission denied"
                 else if e =? 14 then "Bad address"
                 else "Unknown error").

Definition demo_proc (fork_result : Z) : proc :=
  mkProc (demo_os fork_result) "/gone" 0 true.

(** What the child of [spawn] does: exec, and on failure report and leave
    with status 1. *)
Definition child_run (p : proc) (path : string) (t : tokens)
  : list event * outcome unit :=
  match execv_errno (os p) path with
  | None => ([Execv (Some path) (map Some t ++ [None])], Replaced)
  | Some e =>
      (Execv (Some path) (map Some t ++ [None])
         :: trace_of (perror (Some path) (set_errno e p)),
       Exited 1)
  end.

(** Splitting on a character: all fields between separators, in order,
    empty ones included. *)
Fixpoint split_on (c : ascii) (s : string) : list string :=
  match s with
  | EmptyString => [EmptyString]
  | String a r =>
      if Ascii.eqb a c then EmptyString :: split_on c r
      else match split_on c r with
           | f :: fs => String a f :: fs
           | [] => [String a EmptyString]
           end
  end.

(** The directories of a PATH value: its non-empty fields. *)
Definition path_dirs (path : string) : list string :=
  filter (fun d => d <> EmptyString) (split_on ":" path).

Definition candidates (command path : string) : list string :=
  map (fun d => d +:+ "/" +:+ command) (path_dirs path).

(** The leftmost candidate that exists, and the candidates looked at
    until then. *)
Fixpoint first_existing (ex : string -> bool) (l : list string)
  : option string :=
  match l with
  | [] => None
  | f :: fs => if ex f then Some f else first_existing ex fs
  end.

Fixpoint tested (ex : string -> bool) (l : list string) : list string :=
  match l with
  | [] => []
  | f :: fs => f :: (if ex f then [] else tested ex fs)
  end.

Definition same_files (p p' : proc) : Prop :=
  os p' = os p /\ cwd p' = cwd p.

(** * Further vocabulary: the word list *)

(** add_word for every word of [ws] in turn, every allocation succeeding. *)
Definition add_words (l : word_count_list_t) (ws : list string)
  : word_count_list_t :=
  fold_left (fun l w => new_list (add_word true l w)) ws l.

(** The count that the table holds for a word: that of the entry find_word
    returns, 0 when it returns NULL. *)
Definition count_of (l : word_count_list_t) (w : string) : Z :=
  match find_word l w with
  | Some i => match l !! i with Some wc => count wc | None => 0 end
  | None => 0
  end.

(** The words of [ws] that are not in [seen], each where it first occurs. *)
Fixpoint first_occurrences (seen ws : list string) : list string :=
  match ws with
  | [] => []
  | w :: ws' =>
      if bool_decide (w ∈ seen) then first_occurrences seen ws'
      else w :: first_occurrences (seen ++ [w]) ws'
  end.

(** The tab character. *)
Definition tab : string := String (ascii_of_nat 9) EmptyString.

Fixpoint spaces (n : nat) : string :=
  match n with
  | O => EmptyString
  | S n' => String " " (spaces n')
  end.

(** printf's "%8d": the decimal digits, right-justified in a field of at
    least 8 columns. *)
Definition fmt_8d (n : Z) : string :=
  spaces (8 - String.length (pretty n)) +:+ pretty n.

(** fprint_words: the text written to [outfile], one line per entry from
    the front of the list to the back. *)
Fixpoint fprint_words (wclist : word_count_list_t) : string :=
  match wclist with
  | [] => EmptyString
  | wc :: rest =>
      (fmt_8d (count wc) +:+ tab +:+ word wc +:+ nl) +:+ fprint_words rest
  end.

(** less_list: the list elements are the entries themselves, and [aux] is
    the caller's comparator. *)
Definition less_list (ewc1 ewc2 : word_count_t)
    (aux : word_count_t -> word_count_t -> bool) : bool :=
  aux ewc1 ewc2.

(** wordcount_sort.  Modelled from the spec: list_sort belongs to the
    Pintos list, which is not part of the sources ("a comparator-driven
    sort"); it is a parameter here. *)
Definition wordcount_sort
    (list_sort : (word_count_t -> word_count_t ->
                  (word_count_t -> word_count_t -> bool) -> bool) ->
                 (word_count_t -> word_count_t -> bool) ->
                 list word_count_t -> list word_count_t)
    (wclist : word_count_list_t)
    (less : word_count_t -> word_count_t -> bool) : word_count_list_t :=
  list_sort less_list less wclist.

(** An insertion sort, to try wordcount_sort on. *)
Fixpoint insert_sorted (less : word_count_t -> word_count_t -> bool)
    (x : word_count_t) (l : list word_count_t) : list word_count_t :=
  match l with
  | [] => [x]
  | y :: l' => if less y x then y :: insert_sorted less x l' else x :: y :: l'
  end.

Definition insertion_sort
    (lt : word_count_t -> word_count_t ->
          (word_count_t -> word_count_t -> bool) -> bool)
    (aux : word_count_t -> word_count_t -> bool)
    (l : list word_count_t) : list word_count_t :=
  fold_right (insert_sorted (fun a b => lt a b aux)) [] l.

(** * Further vocabulary: the shell *)

(** The candidates of the PATH search of a process: none when PATH is not
    set. *)
Definition path_candidates (command : string) (p : proc) : list string :=
  match environ (os p) !! "PATH" with
  | Some path => candidates command path
  | None => []
  end.








(** * Properties *)

(** ** The monad *)

Lemma trace_bind {A B} (m : sh A) (f : A -> sh B) (p : proc) :
  trace_of (bind m f p) =
  trace_of (m p) ++
  match outcome_of (m p) with
  | Ret a p' => trace_of (f a p')
  | _ => []
  end.
Proof.
  unfold bind, trace_of, outcome_of.
  destruct (m p) as [t1 [a p'| | |]]; simpl; rewrite ?app_nil_r; trivial.
  destruct (f a p'); reflexivity.
Qed.

Lemma bind_ret_l {A B} (a : A) (f : A -> sh B) (p : proc) :
  bind (ret a) f p = f a p.
Proof. unfold bind, ret. destruct (f a p); reflexivity. Qed.

Lemma run_pair {A} (r : list event * outcome A) :
  r = (trace_of r, outcome_of r).
Proof. destruct r; reflexivity. Qed.

(** ** Builtin lookup *)

Lemma lookup_builtin (name : string) (p : proc) :
  name ∈ builtin_names ->
  exists i d, lookup (Some name) p = ([], Ret (Z.of_nat i) p) /\
              cmd_table !! i = Some d /\ cmd d = name.
Proof.
  unfold builtin_names; simpl. intros H.
  repeat (apply elem_of_cons in H as [-> | H]);
    [ exists 0%nat | exists 1%nat | exists 2%nat | exists 3%nat | ];
    try (eexists; repeat split; reflexivity).
  apply elem_of_nil in H. contradiction.
Qed.

Lemma string_compare_refl (s : string) : String.compare s s = Eq.
Proof.
  pose proof (String.compare_antisym s s) as H.
  destruct (String.compare s s); simpl in H; congruence.
Qed.

Lemma strcmp_some (x y : string) :
  strcmp (Some x) (Some y) =
  Some (match String.compare x y with Eq => 0 | Lt => -1 | Gt => 1 end).
Proof. reflexivity. Qed.

Lemma lookup_from_miss (tbl : list fun_desc_t) (i : Z) (name : string)
    (p : proc) :
  name ∉ map cmd tbl ->
  lookup_from i tbl (Some name) p = ([], Ret (-1) p).
Proof.
  revert i. induction tbl as [|d tbl IH]; intros i Hn; [reflexivity|].
  simpl in Hn. apply not_elem_of_cons in Hn as [Hd Hn].
  cbn [lookup_from]. rewrite strcmp_some.
  destruct (String.compare (cmd d) name) eqn:E.
  - apply String.compare_eq_iff in E. congruence.
  - rewrite bind_ret_l. simpl. now apply IH.
  - rewrite bind_ret_l. simpl. now apply IH.
Qed.

Lemma lookup_miss (name : string) (p : proc) :
  name ∉ builtin_names -> lookup (Some name) p = ([], Ret (-1) p).
Proof. apply lookup_from_miss. Qed.

(** ** Traces of the builtins *)

Ltac not_in_list :=
  repeat (apply not_elem_of_cons; split; [discriminate|]);
  apply not_elem_of_nil.

Ltac run_sh :=
  unfold bind, ret, emit, get_proc, put_proc, fault, exit_, fprintf_s,
    tokens_destroy, perror, trace_of, outcome_of; simpl.

Lemma cmd_help_run (t : tokens) (p : proc) :
  cmd_help t p =
  (map (fun d => Write stdout (cmd d +:+ " - " +:+ doc d +:+ nl)) cmd_table,
   Ret 1 p).
Proof. reflexivity. Qed.

Lemma cmd_exit_run (t : tokens) (p : proc) :
  cmd_exit t p = ([TokensDestroy t], Exited 0).
Proof. reflexivity. Qed.

Lemma cmd_cd_many (a b c : string) (rest : tokens) (p : proc) :
  cmd_cd (a :: b :: c :: rest) p =
  ([Write stderr ("cd: too many arguments" +:+ nl)], Ret 0 p).
Proof. reflexivity. Qed.

Lemma cmd_cd_two (a d : string) (p : proc) :
  cmd_cd [a; d] p = cd_report p (Some d).
Proof.
  unfold cmd_cd, cd_report, chdir. run_sh.
  destruct (fs_chdir (os p) (cwd p) d); reflexivity.
Qed.

Lemma cmd_cd_home (t : tokens) (p : proc) :
  (length t <= 1)%nat ->
  cmd_cd t p =
  (Getenv "HOME" :: trace_of (cd_report p (environ (os p) !! "HOME")),
   outcome_of (cd_report p (environ (os p) !! "HOME"))).
Proof.
  intros Hl. unfold cmd_cd, cd_report, chdir, getenv, tokens_get_length.
  destruct t as [|a [|b t]]; simpl in Hl; try lia; run_sh;
    (destruct (environ (os p) !! "HOME") as [h|]; [|reflexivity];
     destruct (fs_chdir (os p) (cwd p) h); reflexivity).
Qed.

Lemma cmd_pwd_run (t : tokens) (p : proc) :
  cmd_pwd t p =
  match fs_getcwd (os p) (cwd p) with
  | inr d => ([Getcwd; Write stdout (d +:+ nl)], Ret 0 p)
  | inl e => ([Getcwd; WriteNull stdout], Ret 0 (set_errno e p))
  end.
Proof.
  unfold cmd_pwd, getcwd. run_sh.
  destruct (fs_getcwd (os p) (cwd p)); reflexivity.
Qed.

Lemma cd_report_quiet (p : proc) (target : cptr) :
  Forall (fun e => external_event e = false) (trace_of (cd_report p target)).
Proof.
  unfold cd_report. destruct target as [d|].
  - destruct (fs_chdir (os p) (cwd p) d); repeat constructor.
  - repeat constructor.
Qed.

Lemma call_quiet (f : cmd_fun_t) (t : tokens) (p : proc) :
  Forall (fun e => external_event e = false) (trace_of (call f t p)).
Proof.
  destruct f; cbn [call].
  - rewrite cmd_help_run. repeat constructor.
  - rewrite cmd_exit_run. repeat constructor.
  - rewrite cmd_pwd_run.
    destruct (fs_getcwd (os p) (cwd p)); repeat constructor.
  - destruct t as [|a [|b [|c t]]].
    + rewrite cmd_cd_home by (simpl; lia).
      constructor; [reflexivity | apply cd_report_quiet].
    + rewrite cmd_cd_home by (simpl; lia).
      constructor; [reflexivity | apply cd_report_quiet].
    + rewrite cmd_cd_two. apply cd_report_quiet.
    + rewrite cmd_cd_many. repeat constructor.
Qed.

(** ** The loop of main *)

Lemma epilogue_run (n : Z) (t : tokens) (p : proc) :
  epilogue n t p =
  (prompt_events (shell_is_interactive p) (n + 1) ++ [TokensDestroy t],
   Ret (next_line_num (shell_is_interactive p) n) p).
Proof.
  unfold epilogue, prompt_events, next_line_num. run_sh.
  destruct (shell_is_interactive p); reflexivity.
Qed.

Lemma bind_run {A B} (m : sh A) (f : A -> sh B) (p p' : proc)
    (tr : list event) (a : A) :
  m p = (tr, Ret a p') ->
  bind m f p = (tr ++ trace_of (f a p'), outcome_of (f a p')).
Proof.
  intros H. unfold bind. rewrite H. destruct (f a p'); reflexivity.
Qed.

Lemma dispatch_builtin (i : nat) (d : fun_desc_t) (t : tokens) (p : proc) :
  lookup (tokens_get_token t 0) p = ([], Ret (Z.of_nat i) p) ->
  cmd_table !! i = Some d ->
  dispatch t p = (call (fun_ d) t ;; ret tt) p.
Proof.
  intros Hl Hd. unfold dispatch. rewrite (bind_run _ _ _ _ _ _ Hl).
  replace (0 <=? Z.of_nat i) with true by (symmetry; apply Z.leb_le; lia).
  rewrite Nat2Z.id, Hd. simpl. symmetry. apply run_pair.
Qed.

Lemma dispatch_external (name : string) (rest : tokens) (p : proc) :
  name ∉ builtin_names ->
  dispatch (name :: rest) p = external (name :: rest) p.
Proof.
  intros Hn. unfold dispatch.
  rewrite (bind_run _ _ _ _ _ _ (lookup_miss name p Hn)).
  simpl. symmetry. apply run_pair.
Qed.

Lemma build_args_all (t : tokens) : build_args t = map Some t ++ [None].
Proof.
  unfold build_args, tokens_get_length, tokens_get_token. f_equal.
  induction t as [|a t IH]; [reflexivity|].
  simpl. f_equal. rewrite <- seq_shift, map_map. exact IH.
Qed.

(** C1: a line whose first token is a builtin name runs that builtin's
    handler, and the whole iteration makes no direct-path check, no PATH
    search and creates no child. *)
Theorem builtin_line_runs_handler (name : string) (rest : tokens)
    (line_num : Z) (p : proc) :
  name ∈ builtin_names ->
  exists i d,
    cmd_table !! i = Some d /\ cmd d = name /\
    dispatch (name :: rest) p = (call (fun_ d) (name :: rest) ;; ret tt) p /\
    Forall (fun e => external_event e = false)
           (trace_of (loop_body line_num (name :: rest) p)).
Proof.
  intros Hin. destruct (lookup_builtin name p Hin) as (i & d & Hl & Hd & Hc).
  exists i, d. split; [exact Hd|]. split; [exact Hc|].
  assert (Hdis : dispatch (name :: rest) p
                 = (call (fun_ d) (name :: rest) ;; ret tt) p)
    by (apply (dispatch_builtin i); assumption).
  split; [exact Hdis|].
  unfold loop_body. rewrite trace_bind, Hdis. apply Forall_app. split.
  - rewrite trace_bind. apply Forall_app. split; [apply call_quiet|].
    destruct (outcome_of _); constructor.
  - destruct (outcome_of _); try constructor.
    rewrite epilogue_run. unfold prompt_events.
    destruct (shell_is_interactive p0); repeat constructor.
Qed.

Lemma builtin_line_runs_handler_witness :
  "pwd" ∈ builtin_names /\
  exists i d,
    cmd_table !! i = Some d /\ cmd d = "pwd" /\
    dispatch ["pwd"] (demo_proc 7) = (call (fun_ d) ["pwd"] ;; ret tt) (demo_proc 7) /\
    Forall (fun e => external_event e = false)
           (trace_of (loop_body 0 ["pwd"] (demo_proc 7))).
Proof.
  split.
  - unfold builtin_names; simpl. repeat constructor.
  - apply (builtin_line_runs_handler "pwd" [] 0 (demo_proc 7)).
    unfold builtin_names; simpl. repeat constructor.
Defined.

(** ** External commands *)

Lemma stat_hit (name : string) (p : proc) :
  fs_stat (os p) (cwd p) name = true ->
  stat (Some name) p = ([Stat (Some name)], Ret 0 p).
Proof. intros H. unfold stat. run_sh. now rewrite H. Qed.

Lemma stat_miss (name : string) (p : proc) :
  fs_stat (os p) (cwd p) name = false ->
  stat (Some name) p =
  ([Stat (Some name)],
   Ret (-1) (set_errno (fs_stat_errno (os p) (cwd p) name) p)).
Proof. intros H. unfold stat. run_sh. now rewrite H. Qed.

Lemma spawn_run (path : string) (t : tokens) (p : proc) :
  spawn (Some path) t p =
  if fork_ret (os p) =? 0
  then (Fork 0 :: trace_of (child_run p path t), outcome_of (child_run p path t))
  else ([Fork (fork_ret (os p)); Waitpid (fork_ret (os p))], Ret tt p).
Proof.
  unfold spawn, fork, waitpid, child_run, execv. rewrite build_args_all.
  run_sh. destruct (fork_ret (os p) =? 0) eqn:E; simpl; [|reflexivity].
  apply Z.eqb_eq in E. rewrite E.
  destruct (execv_errno (os p) path); simpl; [|reflexivity].
  destruct path; reflexivity.
Qed.

Lemma external_direct (name : string) (rest : tokens) (p : proc) :
  fs_stat (os p) (cwd p) name = true ->
  external (name :: rest) p =
  (Stat (Some name) :: trace_of (spawn (Some name) (name :: rest) p),
   outcome_of (spawn (Some name) (name :: rest) p)).
Proof.
  intros Hs. unfold external.
  cbn [tokens_get_length length Nat.ltb Nat.leb tokens_get_token].
  change ((name :: rest) !! 0%nat) with (Some name).
  erewrite bind_run
    by (erewrite bind_run by (apply stat_hit, Hs); reflexivity).
  reflexivity.
Qed.

(** C2: a first token that is no builtin but names an existing file is
    executed directly.  With [r] the value fork returns in this process:
    the child ([r = 0]) calls execv on the token itself with all tokens
    followed by NULL; the parent waits for [r] and only then prompts and
    releases the tokens.  PATH is never read. *)
Theorem direct_path_is_executed (name : string) (rest : tokens)
    (line_num : Z) (p : proc) :
  name ∉ builtin_names ->
  fs_stat (os p) (cwd p) name = true ->
  let t := name :: rest in
  let r := fork_ret (os p) in
  loop_body line_num t p =
    (if r =? 0
     then (Stat (Some name) :: Fork 0 :: trace_of (child_run p name t),
           match execv_errno (os p) name with
           | None => Replaced
           | Some _ => Exited 1
           end)
     else ([Stat (Some name); Fork r; Waitpid r]
             ++ prompt_events (shell_is_interactive p) (line_num + 1)
             ++ [TokensDestroy t],
           Ret (next_line_num (shell_is_interactive p) line_num) p)) /\
  (Getenv "PATH" ∉ trace_of (loop_body line_num t p)) /\
  (r = 0 ->
   Execv (Some name) (map Some t ++ [None])
     ∈ trace_of (loop_body line_num t p)).
Proof.
  intros Hn Hs t r.
  assert (E : loop_body line_num t p =
    (if r =? 0
     then (Stat (Some name) :: Fork 0 :: trace_of (child_run p name t),
           match execv_errno (os p) name with
           | None => Replaced
           | Some _ => Exited 1
           end)
     else ([Stat (Some name); Fork r; Waitpid r]
             ++ prompt_events (shell_is_interactive p) (line_num + 1)
             ++ [TokensDestroy t],
           Ret (next_line_num (shell_is_interactive p) line_num) p))).
  { unfold loop_body, t, bind.
    rewrite (dispatch_external name rest p Hn), (external_direct _ _ _ Hs).
    rewrite spawn_run. fold r. unfold child_run.
    destruct (r =? 0); [destruct (execv_errno (os p) name); reflexivity|].
    cbn -[epilogue]. rewrite epilogue_run. reflexivity. }
  split; [exact E|]. rewrite E. unfold child_run, prompt_events. split.
  - destruct (r =? 0); simpl.
    + destruct (execv_errno (os p) name); [destruct name|]; not_in_list.
    + destruct (shell_is_interactive p); not_in_list.
  - intros Hr. rewrite Hr. simpl.
    destruct (execv_errno (os p) name); repeat constructor.
Qed.

Lemma direct_path_is_executed_witness :
  loop_body 3 ["/bin/echo"; "hi"] (demo_proc 0) =
    ([Stat (Some "/bin/echo"); Fork 0;
      Execv (Some "/bin/echo") [Some "/bin/echo"; Some "hi"; None]],
     Replaced) /\
  (Getenv "PATH" ∉ trace_of (loop_body 3 ["/bin/echo"; "hi"] (demo_proc 0))) /\
  (0 = 0 ->
   Execv (Some "/bin/echo") [Some "/bin/echo"; Some "hi"; None]
     ∈ trace_of (loop_body 3 ["/bin/echo"; "hi"] (demo_proc 0))).
Proof.
  apply (direct_path_is_executed "/bin/echo" ["hi"] 3 (demo_proc 0)).
  - unfold builtin_names; simpl. not_in_list.
  - reflexivity.
Defined.

(** ** The builtins, one by one *)

(** C4: cd.  With more than two tokens it only prints the usage error and
    the process state (working directory included) is untouched; with two
    tokens it changes to the second one; with one token it changes to
    the value of HOME; a failing chdir is reported through
    perror; the builtin returns 0 in every case. *)
Theorem cmd_cd_behaviour (p : proc) :
  (forall a b c rest,
     cmd_cd (a :: b :: c :: rest) p =
     ([Write stderr ("cd: too many arguments" +:+ nl)], Ret 0 p)) /\
  (forall a d, cmd_cd [a; d] p = cd_report p (Some d)) /\
  (forall a,
     cmd_cd [a] p =
     (Getenv "HOME" :: trace_of (cd_report p (environ (os p) !! "HOME")),
      outcome_of (cd_report p (environ (os p) !! "HOME")))) /\
  (forall d d', fs_chdir (os p) (cwd p) d = inr d' ->
     cd_report p (Some d) = ([Chdir (Some d)], Ret 0 (set_cwd d' p))) /\
  (forall d e, fs_chdir (os p) (cwd p) d = inl e ->
     cd_report p (Some d) =
     ([Chdir (Some d); Write stderr ("cd: " +:+ strerror (os p) e +:+ nl)],
      Ret 0 (set_errno e p))) /\
  (forall t, exists tr p', cmd_cd t p = (tr, Ret 0 p')).
Proof.
  split; [intros; apply cmd_cd_many|].
  split; [intros; apply cmd_cd_two|].
  split; [intros; apply cmd_cd_home; simpl; lia|].
  split; [intros d d' H; unfold cd_report; now rewrite H|].
  split; [intros d e H; unfold cd_report; now rewrite H|].
  assert (R : forall target, exists tr p', cd_report p target = (tr, Ret 0 p')).
  { intros [d|]; unfold cd_report; [|eauto].
    destruct (fs_chdir (os p) (cwd p) d); eauto. }
  intros [|a [|b [|c t]]].
  - rewrite cmd_cd_home by (simpl; lia).
    destruct (R (environ (os p) !! "HOME")) as (tr & p' & ->). simpl. eauto.
  - rewrite cmd_cd_home by (simpl; lia).
    destruct (R (environ (os p) !! "HOME")) as (tr & p' & ->). simpl. eauto.
  - rewrite cmd_cd_two. apply R.
  - rewrite cmd_cd_many. eauto.
Qed.

Lemma cmd_cd_behaviour_witness :
  cd_report (demo_proc 7) (Some "/tmp")
  = ([Chdir (Some "/tmp")], Ret 0 (set_cwd "/tmp" (demo_proc 7))) /\
  cd_report (demo_proc 7) (Some "/nowhere")
  = ([Chdir (Some "/nowhere");
      Write stderr ("cd: No such file or directory" +:+ nl)],
     Ret 0 (set_errno 2 (demo_proc 7))).
Proof.
  destruct (cmd_cd_behaviour (demo_proc 7)) as (_ & _ & _ & Hok & Herr & _).
  split.
  - apply (Hok "/tmp" "/tmp"). reflexivity.
  - apply (Herr "/nowhere" 2). reflexivity.
Defined.

(** C5: exit destroys the token sequence and then leaves the process with
    status 0.  It does not return: the loop body ends there, with no prompt
    and no second release. *)
Theorem cmd_exit_never_returns (t rest : tokens) (line_num : Z) (p : proc) :
  cmd_exit t p = ([TokensDestroy t], Exited 0) /\
  loop_body line_num ("exit" :: rest) p
  = ([TokensDestroy ("exit" :: rest)], Exited 0) /\
  (forall tokenize line more,
     tokenize line = "exit" :: rest ->
     main_loop tokenize line_num (line :: more) p
     = ([TokensDestroy ("exit" :: rest)], Exited 0)).
Proof.
  split; [reflexivity|]. split; [reflexivity|].
  intros tokenize line more H. cbn [main_loop]. rewrite H. reflexivity.
Qed.

Lemma cmd_exit_never_returns_witness :
  main_loop (fun _ => ["exit"; "now"]) 0 ["exit now"; "pwd"] (demo_proc 7)
  = ([TokensDestroy ["exit"; "now"]], Exited 0).
Proof.
  destruct (cmd_exit_never_returns [] ["now"] 0 (demo_proc 7)) as (_ & _ & H).
  apply (H (fun _ => ["exit"; "now"]) "exit now" ["pwd"]). reflexivity.
Defined.

(** C6: lookup of a null name returns -1 without comparing anything.  The
    guard matters: every comparison of a table name with the null pointer
    would be a fault.  An empty token sequence gives the null name, and the
    line is then accepted silently. *)
Theorem lookup_null_is_none (p : proc) :
  lookup None p = ([], Ret (-1) p) /\
  (forall d : fun_desc_t, strcmp (Some (cmd d)) None = None) /\
  tokens_get_token [] 0 = None /\
  dispatch [] p = ([], Ret tt p).
Proof. repeat split. Qed.

(** C7: a bare cd when HOME is not set.  getenv gives the null pointer,
    chdir on it fails with EFAULT, the failure is reported on standard
    error, and the iteration ends normally: prompt, release of the tokens,
    and the loop goes on with the remaining lines. *)
Theorem bare_cd_without_home (line_num : Z) (p : proc) :
  environ (os p) !! "HOME" = None ->
  loop_body line_num ["cd"] p =
    ([Getenv "HOME"; Chdir None;
      Write stderr ("cd: " +:+ strerror (os p) EFAULT +:+ nl)]
       ++ prompt_events (shell_is_interactive p) (line_num + 1)
       ++ [TokensDestroy ["cd"]],
     Ret (next_line_num (shell_is_interactive p) line_num)
         (set_errno EFAULT p)) /\
  (forall tokenize line more,
     tokenize line = ["cd"] ->
     exists tr,
       main_loop tokenize line_num (line :: more) p =
       (tr ++ trace_of (main_loop tokenize
                          (next_line_num (shell_is_interactive p) line_num)
                          more (set_errno EFAULT p)),
        outcome_of (main_loop tokenize
                      (next_line_num (shell_is_interactive p) line_num)
                      more (set_errno EFAULT p)))).
Proof.
  intros Hh.
  assert (E : loop_body line_num ["cd"] p =
    ([Getenv "HOME"; Chdir None;
      Write stderr ("cd: " +:+ strerror (os p) EFAULT +:+ nl)]
       ++ prompt_events (shell_is_interactive p) (line_num + 1)
       ++ [TokensDestroy ["cd"]],
     Ret (next_line_num (shell_is_interactive p) line_num)
         (set_errno EFAULT p))).
  { assert (D : dispatch ["cd"] p =
      ([Getenv "HOME"; Chdir None;
        Write stderr ("cd: " +:+ strerror (os p) EFAULT +:+ nl)],
       Ret tt (set_errno EFAULT p))).
    { rewrite (dispatch_builtin 3 (mk_fun_desc cmd_cd_p "cd"
                                     "change working directory"));
        try reflexivity.
      cbn [fun_ call]. unfold bind.
      rewrite cmd_cd_home by (simpl; lia). rewrite Hh. reflexivity. }
    unfold loop_body.
    rewrite (bind_run _ _ _ _ _ _ D), epilogue_run. reflexivity. }
  split; [exact E|].
  intros tokenize line more Ht. eexists.
  cbn [main_loop]. rewrite Ht.
  exact (bind_run _ (fun n => main_loop tokenize n more) _ _ _ _ E).
Qed.

Lemma bare_cd_without_home_witness :
  loop_body 4 ["cd"] (demo_proc 7) =
    ([Getenv "HOME"; Chdir None; Write stderr ("cd: Bad address" +:+ nl);
      Write stdout "5: "; TokensDestroy ["cd"]],
     Ret 5 (set_errno EFAULT (demo_proc 7))).
Proof.
  apply (bare_cd_without_home 4 (demo_proc 7)). reflexivity.
Defined.

(** C8: pwd when getcwd fails (here: the working directory was removed,
    errno 2).  Nothing goes to standard error; the null result is handed
    to printf's %s on standard output; pwd returns 0. *)
Theorem pwd_reports_no_getcwd_failure :
  fs_getcwd (os (demo_proc 7)) (cwd (demo_proc 7)) = inl 2 /\
  cmd_pwd ["pwd"] (demo_proc 7)
  = ([Getcwd; WriteNull stdout], Ret 0 (set_errno 2 (demo_proc 7))) /\
  (forall s, Write stderr s ∉ trace_of (cmd_pwd ["pwd"] (demo_proc 7))).
Proof.
  split; [reflexivity|]. split; [reflexivity|].
  intros s. simpl. not_in_list.
Qed.

(** C9: the help builtin is registered as "?".  The word help is in no
    table entry, so such a line is handled as an external command; a line
    starting with ? prints the name and the doc text of every entry, and
    the handler returns 1. *)
Theorem help_is_named_question_mark (rest : tokens) (p : proc) :
  ("help" ∉ builtin_names) /\
  lookup (Some "help") p = ([], Ret (-1) p) /\
  dispatch ("help" :: rest) p = external ("help" :: rest) p /\
  lookup (Some "?") p = ([], Ret 0 p) /\
  fun_ <$> cmd_table !! 0%nat = Some cmd_help_p /\
  cmd_help ("?" :: rest) p
  = (map (fun d => Write stdout (cmd d +:+ " - " +:+ doc d +:+ nl)) cmd_table,
     Ret 1 p) /\
  dispatch ("?" :: rest) p
  = (map (fun d => Write stdout (cmd d +:+ " - " +:+ doc d +:+ nl)) cmd_table,
     Ret tt p).
Proof.
  assert (H : "help" ∉ builtin_names)
    by (unfold builtin_names; simpl; not_in_list).
  split; [exact H|]. split; [apply lookup_miss, H|].
  split; [apply dispatch_external, H|].
  repeat split.
Qed.

(** ** The PATH search *)

Lemma is_delim_colon (a : ascii) : is_delim ":" a = Ascii.eqb a ":".
Proof. simpl. now destruct (Ascii.eqb a ":"). Qed.

Lemma scan_token_split (s : string) :
  split_on ":" s =
  fst (scan_token ":" s) ::
  match snd (scan_token ":" s) with
  | Some r => split_on ":" r
  | None => []
  end.
Proof.
  induction s as [|a r IH]; [reflexivity|].
  cbn [split_on scan_token]. rewrite is_delim_colon.
  destruct (Ascii.eqb a ":"); [reflexivity|].
  rewrite IH. destruct (scan_token ":" r) as [t k]. reflexivity.
Qed.

Lemma scan_token_rest_shorter (s r : string) :
  snd (scan_token ":" s) = Some r ->
  (String.length r < String.length s)%nat.
Proof.
  revert r. induction s as [|a s IH]; intros r; [discriminate|].
  cbn [scan_token]. destruct (is_delim ":" a).
  - intros [= ->]. simpl. lia.
  - destruct (scan_token ":" s) as [t k]. simpl in *. intros H.
    specialize (IH r H). lia.
Qed.

Lemma skip_delims_dirs (s : string) :
  path_dirs (skip_delims ":" s) = path_dirs s.
Proof.
  induction s as [|a r IH]; [reflexivity|].
  cbn [skip_delims]. rewrite is_delim_colon.
  destruct (Ascii.eqb a ":") eqn:E; [|reflexivity].
  rewrite IH. unfold path_dirs. cbn [split_on]. rewrite E.
  now rewrite filter_cons_False by (intros H; now apply H).
Qed.

Lemma skip_delims_length (s : string) :
  (String.length (skip_delims ":" s) <= String.length s)%nat.
Proof.
  induction s as [|a r IH]; [reflexivity|].
  cbn [skip_delims]. destruct (is_delim ":" a); simpl in *; lia.
Qed.

Lemma skip_delims_head (s r : string) (a : ascii) :
  skip_delims ":" s = String a r -> is_delim ":" a = false.
Proof.
  induction s as [|b s IH]; [discriminate|].
  cbn [skip_delims]. destruct (is_delim ":" b) eqn:E; [exact IH|].
  intros [= <- _]. exact E.
Qed.

(** One call of strtok on the saved pointer yields the next directory. *)
Lemma strtok_dirs (olds : string) :
  match strtok None ":" olds with
  | (None, _) => path_dirs olds = []
  | (Some d, olds') =>
      path_dirs olds = d :: path_dirs olds' /\
      (String.length olds' < String.length olds)%nat
  end.
Proof.
  unfold strtok. rewrite <- (skip_delims_dirs olds).
  pose proof (skip_delims_length olds) as Hlen.
  destruct (skip_delims ":" olds) as [|a r] eqn:Es; [reflexivity|].
  apply skip_delims_head in Es.
  pose proof (scan_token_split (String a r)) as Hsp.
  pose proof (scan_token_rest_shorter (String a r)) as Hsh.
  cbn [scan_token] in *. rewrite Es in *.
  destruct (scan_token ":" r) as [t k]. cbn [fst snd] in *.
  unfold path_dirs at 1. rewrite Hsp.
  rewrite filter_cons_True by discriminate.
  destruct k as [r'|].
  - split; [reflexivity|]. specialize (Hsh r' eq_refl). lia.
  - split; [reflexivity|]. simpl in *. lia.
Qed.

Lemma search_path_loop_null (fuel : nat) (command olds : string) (p : proc) :
  search_path_loop fuel command None olds p = ([], Ret None p).
Proof. destruct fuel; reflexivity. Qed.

Lemma search_path_loop_run (fuel : nat) (command tok olds : string)
    (p : proc) :
  (String.length olds < fuel)%nat ->
  let ex := fs_stat (os p) (cwd p) in
  let l := map (fun d => d +:+ "/" +:+ command) (tok :: path_dirs olds) in
  exists p',
    search_path_loop fuel command (Some tok) olds p =
    (map (fun f => Stat (Some f)) (tested ex l), Ret (first_existing ex l) p')
    /\ same_files p p'.
Proof.
  revert tok olds p. induction fuel as [|fuel IH]; intros tok olds p Hf; [lia|].
  cbn zeta. cbn [search_path_loop map tested first_existing].
  destruct (fs_stat (os p) (cwd p) (tok +:+ "/" +:+ command)) eqn:Hs.
  - exists p. split; [|now split].
    rewrite (bind_run _ _ _ _ _ _ (stat_hit _ p Hs)). reflexivity.
  - rewrite (bind_run _ _ _ _ _ _ (stat_miss _ p Hs)). cbv beta.
    change (negb (-1 =? -1)) with false. cbv iota.
    pose proof (strtok_dirs olds) as Hd.
    destruct (strtok None ":" olds) as [[d|] olds'].
    + destruct Hd as [Hd Hl]. rewrite Hd.
      destruct (IH d olds'
                  (set_errno (fs_stat_errno (os p) (cwd p)
                                (tok +:+ "/" +:+ command)) p))
        as (p' & Hrun & Ho & Hc); [lia|].
      exists p'. split; [|split; [exact Ho | exact Hc]].
      cbn zeta in Hrun. simpl os in Hrun. simpl cwd in Hrun.
      cbv iota. rewrite Hrun. reflexivity.
    + rewrite Hd, search_path_loop_null. eexists.
      split; [reflexivity|now split].
Qed.

Lemma first_existing_some (ex : string -> bool) (l : list string)
    (f : string) :
  first_existing ex l = Some f <->
  exists pre post,
    l = pre ++ f :: post /\ ex f = true /\
    Forall (fun g => ex g = false) pre.
Proof.
  induction l as [|g l IH]; simpl.
  - split; [discriminate|]. intros (pre & post & H & _).
    destruct pre; discriminate.
  - destruct (ex g) eqn:E.
    + split.
      * intros [= ->]. exists [], l. repeat split; [exact E|constructor].
      * intros (pre & post & H & Hf & Hp).
        destruct pre as [|g' pre]; simpl in H.
        -- congruence.
        -- injection H as -> _. apply Forall_cons in Hp as [Hp _]. congruence.
    + rewrite IH. split.
      * intros (pre & post & -> & Hf & Hp).
        exists (g :: pre), post. repeat split; [exact Hf|].
        constructor; assumption.
      * intros (pre & post & H & Hf & Hp).
        destruct pre as [|g' pre]; simpl in H.
        -- congruence.
        -- injection H as -> ->. apply Forall_cons in Hp as [_ Hp]. eauto.
Qed.

Lemma first_existing_none (ex : string -> bool) (l : list string) :
  first_existing ex l = None <-> Forall (fun g => ex g = false) l.
Proof.
  induction l as [|g l IH]; simpl.
  - split; [constructor | reflexivity].
  - destruct (ex g) eqn:E.
    + split; [discriminate|]. intros H.
      apply Forall_cons in H as [H _]. congruence.
    + rewrite IH. split; [now constructor|].
      intros H. now apply Forall_cons in H as [_ H].
Qed.

(** C3: search_path.  The candidates are the non-empty ':'-separated
    fields of PATH, in order, each followed by "/" and the command.  They
    are probed from the left by stat alone, and never past the first one
    that exists, which is the result; the result is null when PATH is not
    set, when it has no directory (the empty value), or when no candidate
    exists. *)
Theorem search_path_leftmost (command : string) (p : proc) :
  let ex := fs_stat (os p) (cwd p) in
  (environ (os p) !! "PATH" = None ->
   search_path command p = ([Getenv "PATH"], Ret None p)) /\
  (forall path, environ (os p) !! "PATH" = Some path ->
   exists p',
     search_path command p =
     (Getenv "PATH"
        :: map (fun f => Stat (Some f)) (tested ex (candidates command path)),
      Ret (first_existing ex (candidates command path)) p') /\
     same_files p p') /\
  (forall path f,
     first_existing ex (candidates command path) = Some f <->
     exists pre d post,
       path_dirs path = pre ++ d :: post /\
       f = d +:+ "/" +:+ command /\ ex f = true /\
       Forall (fun d' => ex (d' +:+ "/" +:+ command) = false) pre) /\
  (forall path,
     first_existing ex (candidates command path) = None <->
     Forall (fun d => ex (d +:+ "/" +:+ command) = false) (path_dirs path)) /\
  candidates command "" = [].
Proof.
  intros ex. split; [|split; [|split; [|split]]].
  - intros Hp. unfold search_path, getenv. run_sh. now rewrite Hp.
  - intros path Hp. unfold search_path.
    assert (G : getenv "PATH" p = ([Getenv "PATH"], Ret (Some path) p))
      by (unfold getenv; run_sh; now rewrite Hp).
    rewrite (bind_run _ _ _ _ _ _ G). unfold candidates.
    change (strtok (Some path) ":" "") with (strtok None ":" path).
    pose proof (strtok_dirs path) as Hd.
    destruct (strtok None ":" path) as [[d|] olds'].
    + destruct Hd as [Hd Hl]. rewrite Hd.
      destruct (search_path_loop_run (S (String.length path)) command d
                  olds' p) as (p' & Hrun & Hsame); [lia|].
      exists p'. split; [|exact Hsame]. rewrite Hrun. reflexivity.
    + rewrite Hd. exists p. split; [reflexivity|now split].
  - intros path f. unfold candidates. rewrite first_existing_some. split.
    + intros (pre & post & Hl & Hf & Hpre).
      apply map_eq_app in Hl as (dpre & drest & Hdirs & <- & Hrest).
      apply map_eq_cons in Hrest as (d & dpost & -> & <- & <-).
      exists dpre, d, dpost. repeat split; [exact Hdirs | exact Hf |].
      now apply Forall_map in Hpre.
    + intros (pre & d & post & Hdirs & -> & Hf & Hpre).
      exists (map (fun d => d +:+ "/" +:+ command) pre),
             (map (fun d => d +:+ "/" +:+ command) post).
      rewrite Hdirs, map_app. repeat split; [exact Hf|].
      now apply Forall_map.
  - intros path. unfold candidates. rewrite first_existing_none.
    now rewrite Forall_map.
  - reflexivity.
Qed.

Lemma search_path_leftmost_witness :
  exists p',
    search_path "env" (demo_proc 7) =
    ([Getenv "PATH"; Stat (Some "/opt/bin/env"); Stat (Some "/usr/bin/env")],
     Ret (Some "/usr/bin/env") p') /\
    same_files (demo_proc 7) p'.
Proof.
  destruct (search_path_leftmost "env" (demo_proc 7)) as (_ & H & _).
  exact (H "/opt/bin::/usr/bin:/bin" eq_refl).
Defined.

(** ** The scenarios of the specification, run on the concrete machine *)

Example blank_line_only_prompts :
  loop_body 0 [] (demo_proc 7)
  = ([Write stdout "1: "; TokensDestroy []], Ret 1 (demo_proc 7)).
Proof. reflexivity. Qed.

Example upper_case_is_no_builtin :
  lookup (Some "PWD") (demo_proc 7) = ([], Ret (-1) (demo_proc 7)).
Proof. reflexivity. Qed.

Example unknown_command_is_reported :
  trace_of (loop_body 0 ["nosuch"; "x"] (demo_proc 7))
  = [Stat (Some "nosuch"); Getenv "PATH";
     Stat (Some "/opt/bin/nosuch"); Stat (Some "/usr/bin/nosuch");
     Stat (Some "/bin/nosuch");
     Write stderr ("nosuch: command not found" +:+ nl);
     Write stdout "1: "; TokensDestroy ["nosuch"; "x"]].
Proof. reflexivity. Qed.

Example bare_name_is_resolved_in_the_parent :
  trace_of (loop_body 0 ["env"] (demo_proc 7))
  = [Stat (Some "env"); Getenv "PATH";
     Stat (Some "/opt/bin/env"); Stat (Some "/usr/bin/env");
     Fork 7; Waitpid 7; Write stdout "1: "; TokensDestroy ["env"]].
Proof. reflexivity. Qed.

Example direct_path_in_the_parent :
  trace_of (loop_body 0 ["/bin/echo"; "hi"] (demo_proc 7))
  = [Stat (Some "/bin/echo"); Fork 7; Waitpid 7;
     Write stdout "1: "; TokensDestroy ["/bin/echo"; "hi"]].
Proof. reflexivity. Qed.

Example failed_exec_leaves_the_child_with_1 :
  loop_body 0 ["/tmp"] (demo_proc 0)
  = ([Stat (Some "/tmp"); Fork 0; Execv (Some "/tmp") [Some "/tmp"; None];
      Write stderr ("/tmp: Permission denied" +:+ nl)],
     Exited 1).
Proof. reflexivity. Qed.

Example cd_then_pwd :
  trace_of (main (fun line => [line]) ["cd"; "pwd"; "exit"; "pwd"]
              (mkProc (mkOS (<["HOME" := "/tmp"]> ∅)
                            (fun _ _ => false) (fun _ _ => 2)
                            (fun _ d => inr d) (fun d => inr d) 7
                            (fun _ => None) (fun _ => "error"))
                      "/" 0 false))
  = [Getenv "HOME"; Chdir (Some "/tmp"); TokensDestroy ["cd"];
     Getcwd; Write stdout ("/tmp" +:+ nl); TokensDestroy ["pwd"];
     TokensDestroy ["exit"]].
Proof. reflexivity. Qed.

(** ** The word list *)

Lemma find_word_from_none (i : nat) (l : list word_count_t) (w : string) :
  find_word_from i l w = None <-> w ∉ map word l.
Proof.
  revert i. induction l as [|wc l IH]; intros i; simpl.
  - split; [intros _; apply not_elem_of_nil | reflexivity].
  - rewrite not_elem_of_cons.
    destruct (String.compare (word wc) w) eqn:E.
    + apply String.compare_eq_iff in E. split; [discriminate|].
      intros [H _]. congruence.
    + rewrite IH. split; [|tauto]. intros H. split; [|exact H].
      intros ->. rewrite string_compare_refl in E. discriminate.
    + rewrite IH. split; [|tauto]. intros H. split; [|exact H].
      intros ->. rewrite string_compare_refl in E. discriminate.
Qed.

Lemma find_word_from_some (i j : nat) (l : list word_count_t) (w : string) :
  find_word_from i l w = Some j ->
  exists k wc, j = (i + k)%nat /\ l !! k = Some wc /\ word wc = w /\
               w ∉ map word (take k l).
Proof.
  revert i. induction l as [|wc l IH]; intros i; simpl; [discriminate|].
  destruct (String.compare (word wc) w) eqn:E.
  - apply String.compare_eq_iff in E. intros [= <-].
    exists 0%nat, wc. repeat split; [lia | exact E | apply not_elem_of_nil].
  - intros H. destruct (IH _ H) as (k & wc' & -> & Hk & Hw & Hn).
    exists (S k), wc'. repeat split; [lia | exact Hk | exact Hw |].
    simpl. apply not_elem_of_cons. split; [|exact Hn].
    intros ->. rewrite string_compare_refl in E. discriminate.
  - intros H. destruct (IH _ H) as (k & wc' & -> & Hk & Hw & Hn).
    exists (S k), wc'. repeat split; [lia | exact Hk | exact Hw |].
    simpl. apply not_elem_of_cons. split; [|exact Hn].
    intros ->. rewrite string_compare_refl in E. discriminate.
Qed.

Lemma alter_keeps_words (i : nat) (l : list word_count_t) :
  map word (alter (fun wc => mk_wc (word wc) (count wc + 1)) i l)
  = map word l.
Proof.
  revert i. induction l as [|wc l IH]; intros [|i]; simpl; try reflexivity.
  f_equal. apply IH.
Qed.

Lemma add_word_keeps_nodup (ok : bool) (l : word_count_list_t) (w : string) :
  NoDup (map word l) -> NoDup (map word (new_list (add_word ok l w))).
Proof.
  intros Hnd. unfold add_word. destruct (find_word l w) as [i|] eqn:Hf.
  - simpl. now rewrite alter_keeps_words.
  - destruct ok; [|exact Hnd]. simpl. rewrite map_app. simpl.
    apply NoDup_app. split; [exact Hnd|]. split.
    + intros x Hx Hx'. apply list_elem_of_singleton in Hx' as ->.
      now apply (find_word_from_none 0 l w) in Hf.
    + apply NoDup_singleton.
Qed.

Lemma find_word_some (l : word_count_list_t) (w : string) (i : nat) :
  find_word l w = Some i ->
  exists wc, l !! i = Some wc /\ word wc = w /\ w ∉ map word (take i l).
Proof.
  intros H. apply find_word_from_some in H as (k & wc & -> & H).
  exists wc. exact H.
Qed.

(** C10, as the code has it: the lists built from init_words by add_word
    calls never hold a word twice.  When find_word locates the word, the
    count of that entry, the first one with this word, goes up by one and
    nothing else changes.  Otherwise, if the allocation succeeds, exactly
    one entry with count 1 is appended at the back; if it fails, the list
    is unchanged, perror is called and NULL is returned. *)
Theorem built_lists_have_no_duplicates :
  (forall l, built l -> NoDup (map word l)) /\
  (forall ok l w i,
     find_word l w = Some i ->
     exists wc,
       l !! i = Some wc /\ word wc = w /\
       returned (add_word ok l w) = Some i /\
       new_list (add_word ok l w) !! i = Some (mk_wc w (count wc + 1)) /\
       (forall j, j <> i -> new_list (add_word ok l w) !! j = l !! j) /\
       length (new_list (add_word ok l w)) = length l) /\
  (forall l w,
     find_word l w = None ->
     (w ∉ map word l) /\
     add_word true l w = mk_add (l ++ [mk_wc w 1]) (Some (length l)) []) /\
  (forall l w,
     find_word l w = None ->
     add_word false l w = mk_add l None ["malloc"]).
Proof.
  split; [|split; [|split]].
  - intros l Hb. induction Hb as [|ok l w Hb IH].
    + constructor.
    + now apply add_word_keeps_nodup.
  - intros ok l w i Hf.
    destruct (find_word_some l w i Hf) as (wc & Hi & Hw & _).
    exists wc. unfold add_word. rewrite Hf. cbn [new_list returned].
    split; [exact Hi|]. split; [exact Hw|]. split; [reflexivity|].
    split; [|split].
    + rewrite list_lookup_alter_eq, Hi. simpl. now rewrite Hw.
    + intros j Hj. now apply list_lookup_alter_ne.
    + apply length_alter.
  - intros l w Hf. split.
    + now apply (find_word_from_none 0 l w).
    + unfold add_word. now rewrite Hf.
  - intros l w Hf. unfold add_word. now rewrite Hf.
Qed.

Lemma built_lists_have_no_duplicates_witness :
  NoDup (map word (new_list (add_word true
                     (new_list (add_word true init_words "the")) "the"))) /\
  add_word true [mk_wc "the" 2] "cat"
  = mk_add [mk_wc "the" 2; mk_wc "cat" 1] (Some 1%nat) [] /\
  add_word false [mk_wc "the" 2] "cat" = mk_add [mk_wc "the" 2] None ["malloc"].
Proof.
  destruct built_lists_have_no_duplicates as (Hnd & _ & Hnew & Hfail).
  split; [|split].
  - apply Hnd. do 2 apply built_add. apply built_init.
  - apply (Hnew [mk_wc "the" 2] "cat"). reflexivity.
  - apply (Hfail [mk_wc "the" 2] "cat"). reflexivity.
Defined.

(** C10 as stated fails when the allocation fails: the word is absent and
    yet no entry is appended. *)
Lemma add_word_may_append_nothing :
  find_word init_words "the" = None /\
  new_list (add_word false init_words "the") <> init_words ++ [mk_wc "the" 1].
Proof. split; [reflexivity | discriminate]. Qed.

(** * Further properties of the word list *)

Lemma find_word_from_app (i : nat) (l1 l2 : list word_count_t) (w : string) :
  find_word_from i (l1 ++ l2) w =
  match find_word_from i l1 w with
  | Some j => Some j
  | None => find_word_from (i + length l1) l2 w
  end.
Proof.
  revert i. induction l1 as [|wc l1 IH]; intros i; simpl.
  - now rewrite Nat.add_0_r.
  - destruct (String.compare (word wc) w); try reflexivity;
      rewrite IH; now replace (S i + length l1)%nat with (i + S (length l1))%nat by lia.
Qed.

Lemma find_word_from_words (i : nat) (l1 l2 : list word_count_t) (w : string) :
  map word l1 = map word l2 ->
  find_word_from i l1 w = find_word_from i l2 w.
Proof.
  revert i l2. induction l1 as [|a l1 IH]; intros i [|b l2] H;
    try discriminate; [reflexivity|].
  simpl in H. injection H as Hw Hl. simpl. rewrite Hw.
  destruct (String.compare (word b) w); try reflexivity; now apply IH.
Qed.

Lemma find_word_alter (i : nat) (l : word_count_list_t) (w : string) :
  find_word (alter (fun wc => mk_wc (word wc) (count wc + 1)) i l) w
  = find_word l w.
Proof. apply find_word_from_words, alter_keeps_words. Qed.

Lemma find_word_none (l : word_count_list_t) (w : string) :
  find_word l w = None <-> w ∉ map word l.
Proof. apply find_word_from_none. Qed.

Lemma find_word_in_range (l : word_count_list_t) (w : string) (i : nat) :
  find_word l w = Some i -> (i < length l)%nat.
Proof.
  intros H. apply find_word_some in H as (wc & H & _).
  now apply lookup_lt_Some in H.
Qed.

Lemma find_word_snoc (l : word_count_list_t) (x : word_count_t) (w : string) :
  find_word (l ++ [x]) w =
  match find_word l w with
  | Some j => Some j
  | None => if bool_decide (word x = w) then Some (length l) else None
  end.
Proof.
  unfold find_word. rewrite find_word_from_app.
  destruct (find_word_from 0 l w); [reflexivity|]. simpl.
  destruct (String.compare (word x) w) eqn:E.
  - apply String.compare_eq_iff in E. now rewrite bool_decide_eq_true_2.
  - rewrite bool_decide_eq_false_2; [reflexivity|].
    intros H. rewrite H, string_compare_refl in E. discriminate.
  - rewrite bool_decide_eq_false_2; [reflexivity|].
    intros H. rewrite H, string_compare_refl in E. discriminate.
Qed.

Lemma count_of_add (l : word_count_list_t) (w' w : string) :
  count_of (new_list (add_word true l w')) w
  = count_of l w + (if bool_decide (w' = w) then 1 else 0).
Proof.
  unfold add_word. destruct (find_word l w') as [i|] eqn:Hf; cbn [new_list].
  - unfold count_of. rewrite find_word_alter.
    destruct (find_word_some l w' i Hf) as (wc & Hi & Hw & _).
    case_bool_decide as Hww.
    + rewrite <- Hww, Hf, list_lookup_alter_eq, Hi. reflexivity.
    + destruct (find_word l w) as [j|] eqn:Hj; [|lia].
      destruct (find_word_some l w j Hj) as (wc' & Hj' & Hw' & _).
      assert (i <> j) by (intros ->; congruence).
      rewrite list_lookup_alter_ne by assumption. lia.
  - unfold count_of. rewrite find_word_snoc. cbn [word].
    destruct (find_word l w) as [j|] eqn:Hj.
    + pose proof (find_word_in_range l w j Hj).
      rewrite lookup_app_l by assumption.
      case_bool_decide; [congruence | lia].
    + case_bool_decide; [|reflexivity].
      rewrite lookup_app_r by lia. now rewrite Nat.sub_diag.
Qed.


Lemma words_add (ok : bool) (l : word_count_list_t) (w : string) :
  map word (new_list (add_word ok l w)) =
  if bool_decide (w ∈ map word l) then map word l
  else if ok then map word l ++ [w] else map word l.
Proof.
  unfold add_word. destruct (find_word l w) as [i|] eqn:Hf; cbn [new_list].
  - rewrite alter_keeps_words, bool_decide_eq_true_2; [reflexivity|].
    destruct (decide (w ∈ map word l)) as [H|H]; [exact H|].
    apply find_word_none in H. congruence.
  - apply find_word_none in Hf. rewrite bool_decide_eq_false_2 by exact Hf.
    destruct ok; [|reflexivity]. cbn [new_list]. now rewrite map_app.
Qed.

Lemma words_add_words (ws : list string) (l : word_count_list_t) :
  map word (add_words l ws)
  = map word l ++ first_occurrences (map word l) ws.
Proof.
  revert l. induction ws as [|w ws IH]; intros l; simpl.
  - now rewrite app_nil_r.
  - unfold add_words in *. simpl. rewrite IH, words_add.
    destruct (bool_decide (w ∈ map word l)); [reflexivity|].
    now rewrite <- app_assoc.
Qed.

Lemma elem_of_first_occurrences (seen ws : list string) (x : string) :
  x ∈ first_occurrences seen ws <-> x ∈ ws /\ x ∉ seen.
Proof.
  revert seen. induction ws as [|w ws IH]; intros seen; simpl.
  - rewrite elem_of_nil. tauto.
  - case_bool_decide as Hw.
    + rewrite IH, elem_of_cons. split; [tauto|].
      intros [[-> | H] Hs]; [contradiction | tauto].
    + rewrite !elem_of_cons, IH, not_elem_of_app, list_elem_of_singleton.
      destruct (decide (x = w)) as [-> | Hx]; tauto.
Qed.

Lemma NoDup_first_occurrences (seen ws : list string) :
  NoDup (first_occurrences seen ws).
Proof.
  revert seen. induction ws as [|w ws IH]; intros seen; simpl.
  - constructor.
  - case_bool_decide; [apply IH|]. constructor; [|apply IH].
    rewrite elem_of_first_occurrences, not_elem_of_app, list_elem_of_singleton.
    tauto.
Qed.


(** X2: order and size.  The entries are the distinct words of the text,
    each once, in the order of their first occurrence; len_words is the
    number of distinct words. *)
Theorem add_words_keeps_first_occurrence_order (ws : list string) :
  map word (add_words init_words ws) = first_occurrences [] ws /\
  NoDup (first_occurrences [] ws) /\
  (forall x, x ∈ first_occurrences [] ws <-> x ∈ ws) /\
  len_words (add_words init_words ws)
  = size (list_to_set ws : gset string).
Proof.
  assert (E : map word (add_words init_words ws) = first_occurrences [] ws)
    by apply words_add_words.
  assert (M : forall x, x ∈ first_occurrences [] ws <-> x ∈ ws).
  { intros x. rewrite elem_of_first_occurrences, elem_of_nil. tauto. }
  split; [exact E|]. split; [apply NoDup_first_occurrences|].
  split; [exact M|].
  unfold len_words. rewrite <- (length_map word), E.
  rewrite <- (size_list_to_set (C := gset string))
    by apply NoDup_first_occurrences.
  f_equal. apply set_eq. intros x. rewrite !elem_of_list_to_set. apply M.
Qed.

(** X3: the pointer add_word returns.  When it is not null it is the entry
    of the word, the one find_word returns afterwards; it is null only when
    the word was absent and the allocation failed, and the list is then
    unchanged. *)
Theorem add_word_returns_the_entry (ok : bool) (l : word_count_list_t)
    (w : string) :
  match returned (add_word ok l w) with
  | Some i =>
      find_word (new_list (add_word ok l w)) w = Some i /\
      exists wc, new_list (add_word ok l w) !! i = Some wc /\ word wc = w
  | None =>
      ok = false /\ (w ∉ map word l) /\ new_list (add_word ok l w) = l
  end.
Proof.
  unfold add_word. destruct (find_word l w) as [i|] eqn:Hf.
  - cbn [returned new_list]. rewrite find_word_alter. split; [exact Hf|].
    destruct (find_word_some l w i Hf) as (wc & Hi & Hw & _).
    exists (mk_wc (word wc) (count wc + 1)).
    rewrite list_lookup_alter_eq, Hi. split; [reflexivity | exact Hw].
  - destruct ok; cbn [returned new_list].
    + rewrite find_word_snoc, Hf. cbn [word].
      rewrite bool_decide_eq_true_2 by reflexivity. split; [reflexivity|].
      exists (mk_wc w 1). rewrite lookup_app_r by lia.
      rewrite Nat.sub_diag. split; reflexivity.
    + split; [reflexivity|]. split; [|reflexivity].
      now apply find_word_none.
Qed.

(** X4: add_word touches one word only.  For every other word the entry
    find_word returns and the count it holds are as before. *)
Theorem add_word_leaves_other_words (ok : bool) (l : word_count_list_t)
    (w' w : string) :
  w <> w' ->
  find_word (new_list (add_word ok l w')) w = find_word l w /\
  count_of (new_list (add_word ok l w')) w = count_of l w.
Proof.
  intros Hne.
  assert (F : find_word (new_list (add_word ok l w')) w = find_word l w).
  { unfold add_word. destruct (find_word l w') as [i|]; cbn [new_list].
    - apply find_word_alter.
    - destruct ok; cbn [new_list]; [|reflexivity].
      rewrite find_word_snoc. cbn [word].
      destruct (find_word l w); [reflexivity|].
      now rewrite bool_decide_eq_false_2 by congruence. }
  split; [exact F|]. destruct ok.
  - rewrite count_of_add, bool_decide_eq_false_2 by congruence. lia.
  - unfold add_word. destruct (find_word l w') as [i|] eqn:Hf;
      cbn [new_list]; [|reflexivity].
    change (alter (fun wc => mk_wc (word wc) (count wc + 1)) i l)
      with (new_list (mk_add
              (alter (fun wc => mk_wc (word wc) (count wc + 1)) i l)
              (Some i) [])).
    pose proof (count_of_add l w' w) as C. unfold add_word in C.
    rewrite Hf in C. cbn [new_list] in *. rewrite C.
    rewrite bool_decide_eq_false_2 by congruence. lia.
Qed.

Lemma add_word_leaves_other_words_witness :
  find_word (new_list (add_word true [mk_wc "the" 2; mk_wc "cat" 1] "cat"))
            "the"
  = find_word [mk_wc "the" 2; mk_wc "cat" 1] "the" /\
  count_of (new_list (add_word true [mk_wc "the" 2; mk_wc "cat" 1] "cat"))
           "the"
  = count_of [mk_wc "the" 2; mk_wc "cat" 1] "the".
Proof.
  apply (add_word_leaves_other_words true [mk_wc "the" 2; mk_wc "cat" 1]
           "cat" "the").
  discriminate.
Defined.



(** X6: len_words after add_word.  The length grows by one exactly when the
    word was absent and the allocation succeeded, and is unchanged
    otherwise. *)
Theorem add_word_length (ok : bool) (l : word_count_list_t) (w : string) :
  len_words (new_list (add_word ok l w)) =
  if bool_decide (w ∈ map word l) then len_words l
  else if ok then S (len_words l) else len_words l.
Proof.
  unfold len_words. rewrite <- (length_map word), words_add.
  destruct (bool_decide (w ∈ map word l)); [apply length_map|].
  destruct ok; [|apply length_map].
  rewrite length_app, length_map. simpl. lia.
Qed.

Lemma string_app_assoc (a b c : string) : (a +:+ b) +:+ c = a +:+ (b +:+ c).
Proof.
  induction a as [|x a IH]; [reflexivity|].
  change (String x ((a +:+ b) +:+ c) = String x (a +:+ (b +:+ c))).
  now rewrite IH.
Qed.

Lemma string_app_empty (a : string) : a +:+ EmptyString = a.
Proof.
  induction a as [|x a IH]; [reflexivity|].
  change (String x (a +:+ EmptyString) = String x a). now rewrite IH.
Qed.

Lemma fprint_words_app (l1 l2 : word_count_list_t) :
  fprint_words (l1 ++ l2) = fprint_words l1 +:+ fprint_words l2.
Proof.
  induction l1 as [|wc l1 IH]; [reflexivity|].
  cbn [fprint_words app]. rewrite IH. symmetry. apply string_app_assoc.
Qed.

(** X7: printing after add_word.  When a new word has been added, the
    output of fprint_words is the previous output followed by one line for
    that word: the count 1 right-justified in 8 columns, a tab, the word,
    a newline. *)
Theorem fprint_words_after_new_word (l : word_count_list_t) (w : string) :
  find_word l w = None ->
  fprint_words (new_list (add_word true l w))
  = fprint_words l +:+ ("       1" +:+ tab +:+ w +:+ nl).
Proof.
  intros Hf. unfold add_word. rewrite Hf. cbn [new_list].
  rewrite fprint_words_app. cbn [fprint_words word count].
  change (fmt_8d 1) with "       1". now rewrite string_app_empty.
Qed.

Lemma fprint_words_after_new_word_witness :
  fprint_words (new_list (add_word true [mk_wc "the" 12] "cat"))
  = fprint_words [mk_wc "the" 12] +:+ ("       1" +:+ tab +:+ "cat" +:+ nl).
Proof.
  apply (fprint_words_after_new_word [mk_wc "the" 12] "cat"). reflexivity.
Defined.

Example fprint_words_two_entries :
  fprint_words [mk_wc "the" 12; mk_wc "cat" 123456789]
  = "      12" +:+ tab +:+ "the" +:+ nl
    +:+ "123456789" +:+ tab +:+ "cat" +:+ nl.
Proof. reflexivity. Qed.

Lemma count_of_entry (l : word_count_list_t) (wc : word_count_t) :
  NoDup (map word l) -> wc ∈ l -> count_of l (word wc) = count wc.
Proof.
  intros Hnd Hin. unfold count_of.
  destruct (find_word l (word wc)) as [i|] eqn:Hf.
  - destruct (find_word_some l _ i Hf) as (wc' & Hi & Hw & _). rewrite Hi.
    apply list_elem_of_lookup in Hin as [j Hj].
    assert (i = j).
    { apply (NoDup_lookup (map word l) i j (word wc)); [exact Hnd| |].
      - now rewrite list_lookup_fmap, Hi, <- Hw.
      - now rewrite list_lookup_fmap, Hj. }
    subst j. congruence.
  - apply find_word_none in Hf. destruct Hf.
    apply list_elem_of_fmap. now exists wc.
Qed.

Lemma count_of_absent (l : word_count_list_t) (w : string) :
  w ∉ map word l -> count_of l w = 0.
Proof.
  intros H. apply find_word_none in H. unfold count_of. now rewrite H.
Qed.

Lemma insert_sorted_perm (less : word_count_t -> word_count_t -> bool)
    (x : word_count_t) (l : list word_count_t) :
  insert_sorted less x l ≡ₚ x :: l.
Proof.
  induction l as [|y l IH]; simpl; [reflexivity|].
  destruct (less y x); [|reflexivity].
  rewrite IH. apply Permutation_swap.
Qed.

Lemma insertion_sort_perm lt aux (l : list word_count_t) :
  insertion_sort lt aux l ≡ₚ l.
Proof.
  induction l as [|x l IH]; simpl; [reflexivity|].
  unfold insertion_sort in *. simpl. now rewrite insert_sorted_perm, IH.
Qed.

(** X8: sorting keeps the table.  Whenever list_sort rearranges the
    entries (returns a permutation of them), wordcount_sort of a list
    without duplicate words leaves len_words, the absence of duplicates and
    the count of every word as they were, whatever the comparator. *)
Theorem wordcount_sort_keeps_the_counts list_sort (l : word_count_list_t)
    (less : word_count_t -> word_count_t -> bool) :
  list_sort less_list less l ≡ₚ l ->
  NoDup (map word l) ->
  len_words (wordcount_sort list_sort l less) = len_words l /\
  NoDup (map word (wordcount_sort list_sort l less)) /\
  (forall w, count_of (wordcount_sort list_sort l less) w = count_of l w).
Proof.
  unfold wordcount_sort, len_words. intros Hp Hnd.
  assert (Hpw : map word (list_sort less_list less l) ≡ₚ map word l)
    by now apply fmap_Permutation.
  assert (Hnd' : NoDup (map word (list_sort less_list less l)))
    by now rewrite Hpw.
  split; [now rewrite Hp|]. split; [exact Hnd'|].
  intros w. destruct (decide (w ∈ map word l)) as [Hin|Hout].
  - apply list_elem_of_fmap in Hin as (wc & -> & Hwc).
    rewrite (count_of_entry l wc Hnd Hwc).
    apply count_of_entry; [exact Hnd'|]. now rewrite Hp.
  - rewrite (count_of_absent l w Hout).
    apply count_of_absent. now rewrite Hpw.
Qed.

Lemma wordcount_sort_keeps_the_counts_witness :
  len_words (wordcount_sort insertion_sort
               [mk_wc "the" 2; mk_wc "cat" 1; mk_wc "sat" 5]
               (fun a b => count a <? count b))
  = len_words [mk_wc "the" 2; mk_wc "cat" 1; mk_wc "sat" 5] /\
  NoDup (map word (wordcount_sort insertion_sort
                     [mk_wc "the" 2; mk_wc "cat" 1; mk_wc "sat" 5]
                     (fun a b => count a <? count b))) /\
  (forall w,
     count_of (wordcount_sort insertion_sort
                 [mk_wc "the" 2; mk_wc "cat" 1; mk_wc "sat" 5]
                 (fun a b => count a <? count b)) w
     = count_of [mk_wc "the" 2; mk_wc "cat" 1; mk_wc "sat" 5] w).
Proof.
  apply (wordcount_sort_keeps_the_counts insertion_sort
           [mk_wc "the" 2; mk_wc "cat" 1; mk_wc "sat" 5]
           (fun a b => count a <? count b)).
  - apply insertion_sort_perm.
  - simpl. repeat (constructor; [not_in_list|]). constructor.
Defined.

Example wordcount_sort_by_count :
  wordcount_sort insertion_sort
    [mk_wc "the" 2; mk_wc "cat" 1; mk_wc "sat" 5]
    (fun a b => count a <? count b)
  = [mk_wc "cat" 1; mk_wc "the" 2; mk_wc "sat" 5].
Proof. reflexivity. Qed.

(** * Further properties of the shell *)

Lemma set_errno_same (p : proc) : set_errno (errno p) p = p.
Proof. now destruct p. Qed.

Lemma search_path_loop_state (fuel : nat) (command tok olds : string)
    (p : proc) :
  (String.length olds < fuel)%nat ->
  let ex := fs_stat (os p) (cwd p) in
  let l := map (fun d => d +:+ "/" +:+ command) (tok :: path_dirs olds) in
  exists e,
    search_path_loop fuel command (Some tok) olds p =
    (map (fun f => Stat (Some f)) (tested ex l),
     Ret (first_existing ex l) (set_errno e p)).
Proof.
  revert tok olds p. induction fuel as [|fuel IH]; intros tok olds p Hf; [lia|].
  cbn zeta. cbn [search_path_loop map tested first_existing].
  destruct (fs_stat (os p) (cwd p) (tok +:+ "/" +:+ command)) eqn:Hs.
  - exists (errno p). rewrite set_errno_same.
    rewrite (bind_run _ _ _ _ _ _ (stat_hit _ p Hs)). reflexivity.
  - rewrite (bind_run _ _ _ _ _ _ (stat_miss _ p Hs)). cbv beta.
    change (negb (-1 =? -1)) with false. cbv iota.
    pose proof (strtok_dirs olds) as Hd.
    destruct (strtok None ":" olds) as [[d|] olds'].
    + destruct Hd as [Hd Hl]. rewrite Hd.
      destruct (IH d olds'
                  (set_errno (fs_stat_errno (os p) (cwd p)
                                (tok +:+ "/" +:+ command)) p))
        as (e & Hrun); [lia|].
      exists e. cbn zeta in Hrun. simpl os in Hrun. simpl cwd in Hrun.
      cbv iota. rewrite Hrun. reflexivity.
    + rewrite Hd, search_path_loop_null. eexists. reflexivity.
Qed.

Lemma search_path_run (command : string) (p : proc) :
  let ex := fs_stat (os p) (cwd p) in
  let l := path_candidates command p in
  exists e,
    search_path command p =
    (Getenv "PATH" :: map (fun f => Stat (Some f)) (tested ex l),
     Ret (first_existing ex l) (set_errno e p)).
Proof.
  cbn zeta. unfold path_candidates, search_path.
  destruct (environ (os p) !! "PATH") as [path|] eqn:Hp.
  - assert (G : getenv "PATH" p = ([Getenv "PATH"], Ret (Some path) p))
      by (unfold getenv; run_sh; now rewrite Hp).
    rewrite (bind_run _ _ _ _ _ _ G). unfold candidates.
    change (strtok (Some path) ":" "") with (strtok None ":" path).
    pose proof (strtok_dirs path) as Hd.
    destruct (strtok None ":" path) as [[d|] olds'].
    + destruct Hd as [Hd Hl]. rewrite Hd.
      destruct (search_path_loop_state (S (String.length path)) command d
                  olds' p) as (e & Hrun); [lia|].
      exists e. rewrite Hrun. reflexivity.
    + rewrite Hd. exists (errno p). rewrite set_errno_same. reflexivity.
  - exists (errno p). rewrite set_errno_same.
    unfold getenv. run_sh. now rewrite Hp.
Qed.

(** What main does once the direct-path check has failed. *)
Lemma external_path (name : string) (rest : tokens) (p : proc) :
  fs_stat (os p) (cwd p) name = false ->
  let ex := fs_stat (os p) (cwd p) in
  let l := path_candidates name p in
  exists e,
    external (name :: rest) p =
    (Stat (Some name) :: Getenv "PATH"
       :: map (fun f => Stat (Some f)) (tested ex l)
       ++ trace_of
            (match first_existing ex l with
             | Some f => spawn (Some f) (name :: rest)
             | None =>
                 emit (Write stderr (name +:+ ": command not found" +:+ nl))
             end (set_errno e p)),
     outcome_of
       (match first_existing ex l with
        | Some f => spawn (Some f) (name :: rest)
        | None => emit (Write stderr (name +:+ ": command not found" +:+ nl))
        end (set_errno e p))).
Proof.
  intros Hs. cbn zeta.
  destruct (search_path_run name
              (set_errno (fs_stat_errno (os p) (cwd p) name) p))
    as (e & Hsp).
  exists e. cbn zeta in Hsp. unfold path_candidates in Hsp.
  simpl os in Hsp. simpl cwd in Hsp. fold (path_candidates name p) in Hsp.
  unfold external.
  cbn [tokens_get_length length Nat.ltb Nat.leb tokens_get_token].
  change ((name :: rest) !! 0%nat) with (Some name).
  erewrite bind_run
    by (erewrite bind_run by (apply stat_miss, Hs); reflexivity).
  cbn [trace_of outcome_of fst snd app negb]. cbv beta.
  change (negb (-1 =? -1)) with false. cbv iota.
  rewrite (bind_run _ _ _ _ _ _ Hsp).
  destruct (first_existing (fs_stat (os p) (cwd p)) (path_candidates name p));
    reflexivity.
Qed.

Lemma tested_all_miss (ex : string -> bool) (l : list string) :
  Forall (fun f => ex f = false) l ->
  tested ex l = l /\ first_existing ex l = None.
Proof.
  induction 1 as [|f l Hf Hl [IH1 IH2]]; [now split|].
  simpl. rewrite Hf, IH1, IH2. now split.
Qed.

(** X9: a command that is neither a builtin, nor an existing path, nor
    found in any PATH directory.  The shell probes every candidate in
    order, writes exactly one line "<name>: command not found" to standard
    error, creates no child, and ends the iteration normally. *)
Theorem command_not_found_report (name : string) (rest : tokens)
    (line_num : Z) (p : proc) :
  name ∉ builtin_names ->
  fs_stat (os p) (cwd p) name = false ->
  Forall (fun f => fs_stat (os p) (cwd p) f = false)
         (path_candidates name p) ->
  exists e,
    loop_body line_num (name :: rest) p =
    (Stat (Some name) :: Getenv "PATH"
       :: map (fun f => Stat (Some f)) (path_candidates name p)
       ++ [Write stderr (name +:+ ": command not found" +:+ nl)]
       ++ prompt_events (shell_is_interactive p) (line_num + 1)
       ++ [TokensDestroy (name :: rest)],
     Ret (next_line_num (shell_is_interactive p) line_num)
         (set_errno e p)).
Proof.
  intros Hn Hs Hall.
  destruct (tested_all_miss _ _ Hall) as [Ht Hf].
  destruct (external_path name rest p Hs) as (e & He).
  cbn zeta in He. rewrite Ht, Hf in He. exists e.
  unfold loop_body. erewrite bind_run
    by (rewrite (dispatch_external name rest p Hn); exact He).
  rewrite epilogue_run. cbn [trace_of outcome_of fst snd emit].
  simpl shell_is_interactive. cbn [app]. rewrite <- ?app_assoc. reflexivity.
Qed.

Lemma command_not_found_report_witness :
  exists e,
    loop_body 0 ["nosuch"; "x"] (demo_proc 7) =
    ([Stat (Some "nosuch"); Getenv "PATH";
      Stat (Some "/opt/bin/nosuch"); Stat (Some "/usr/bin/nosuch");
      Stat (Some "/bin/nosuch");
      Write stderr ("nosuch: command not found" +:+ nl);
      Write stdout "1: "; TokensDestroy ["nosuch"; "x"]],
     Ret 1 (set_errno e (demo_proc 7))).
Proof.
  apply (command_not_found_report "nosuch" ["x"] 0 (demo_proc 7)).
  - unfold builtin_names; simpl. not_in_list.
  - reflexivity.
  - repeat constructor.
Defined.

(** X10: a bare name found through PATH.  After the failed direct-path
    check and the search, the child ([fork] returned 0) calls execv on the
    resolved path with the tokens as typed (argv[0] is the name, not the
    resolved path) followed by NULL; the parent waits for the child and
    then ends the iteration normally. *)
Theorem path_command_is_executed (name f : string) (rest : tokens)
    (line_num : Z) (p : proc) :
  name ∉ builtin_names ->
  fs_stat (os p) (cwd p) name = false ->
  first_existing (fs_stat (os p) (cwd p)) (path_candidates name p) = Some f ->
  let t := name :: rest in
  let r := fork_ret (os p) in
  let search :=
    Stat (Some name) :: Getenv "PATH"
      :: map (fun f => Stat (Some f))
           (tested (fs_stat (os p) (cwd p)) (path_candidates name p)) in
  exists e : Z,
    loop_body line_num t p =
    if r =? 0
    then (search ++ Fork 0 :: trace_of (child_run p f t),
          match execv_errno (os p) f with
          | None => Replaced
          | Some _ => Exited 1
          end)
    else (search ++ [Fork r; Waitpid r]
            ++ prompt_events (shell_is_interactive p) (line_num + 1)
            ++ [TokensDestroy t],
          Ret (next_line_num (shell_is_interactive p) line_num)
              (set_errno e p)).
Proof.
  intros Hn Hs Hf t r search.
  destruct (external_path name rest p Hs) as (e & He).
  cbn zeta in He. rewrite Hf in He. rewrite spawn_run in He.
  simpl os in He. fold r in He. exists e.
  unfold loop_body, t, bind. rewrite (dispatch_external name rest p Hn), He.
  destruct (r =? 0).
  - unfold child_run. simpl os.
    destruct (execv_errno (os p) f); reflexivity.
  - cbn -[epilogue]. rewrite epilogue_run. unfold search. simpl.
    rewrite <- ?app_assoc. reflexivity.
Qed.

Lemma path_command_is_executed_witness :
  exists e : Z,
    loop_body 0 ["env"; "-i"] (demo_proc 0) =
    ([Stat (Some "env"); Getenv "PATH";
      Stat (Some "/opt/bin/env"); Stat (Some "/usr/bin/env");
      Fork 0; Execv (Some "/usr/bin/env") [Some "env"; Some "-i"; None]],
     Replaced).
Proof.
  apply (path_command_is_executed "env" "/usr/bin/env" ["-i"] 0 (demo_proc 0)).
  - unfold builtin_names; simpl. not_in_list.
  - reflexivity.
  - reflexivity.
Defined.
















(** ** PATH values *)







(** ** Table lookup *)

Lemma lookup_from_first_match (tbl : list fun_desc_t) (i : Z)
    (name : string) (p : proc) :
  lookup_from i tbl (Some name) p =
  ([], Ret (match list_find (fun d => cmd d = name) tbl with
            | Some (j, _) => i + Z.of_nat j
            | None => -1
            end) p).
Proof.
  revert i. induction tbl as [|d tbl IH]; intros i; [reflexivity|].
  cbn [lookup_from list_find]. rewrite strcmp_some.
  destruct (String.compare (cmd d) name) eqn:E.
  - apply String.compare_eq_iff in E.
    rewrite decide_True by exact E. rewrite bind_ret_l. simpl.
    now rewrite Z.add_0_r.
  - rewrite decide_False
      by (intros H; rewrite H, string_compare_refl in E; discriminate).
    rewrite bind_ret_l. simpl. rewrite IH.
    destruct (list_find (fun d0 => cmd d0 = name) tbl) as [[j x]|]; simpl;
      [|reflexivity].
    do 2 f_equal. lia.
  - rewrite decide_False
      by (intros H; rewrite H, string_compare_refl in E; discriminate).
    rewrite bind_ret_l. simpl. rewrite IH.
    destruct (list_find (fun d0 => cmd d0 = name) tbl) as [[j x]|]; simpl;
      [|reflexivity].
    do 2 f_equal. lia.
Qed.

(** X17: lookup is a first-match search.  For any table, the loop of
    lookup returns the position of the first entry whose name equals the
    argument, and -1 when there is none or the argument is null; it makes
    no call and leaves the process as it is. *)
Theorem lookup_is_first_match (tbl : list fun_desc_t) (c : cptr) (p : proc) :
  lookup_from 0 tbl c p =
  ([], Ret (match c with
            | Some name =>
                match list_find (fun d => cmd d = name) tbl with
                | Some (j, _) => Z.of_nat j
                | None => -1
                end
            | None => -1
            end) p).
Proof.
  destruct c as [name|].
  - rewrite lookup_from_first_match.
    destruct (list_find (fun d => cmd d = name) tbl) as [[j x]|]; reflexivity.
  - induction tbl as [|d tbl IH]; [reflexivity|].
    cbn [lookup_from]. rewrite bind_ret_l.
    clear IH. generalize 1. induction tbl as [|d' tbl IH]; intros k;
      [reflexivity|].
    cbn [lookup_from]. rewrite bind_ret_l. apply IH.
Qed.

(** ** init_shell *)

Lemma foreground_loop_waits (pgrp : Z) (waiting later : list Z) :
  Forall (fun a => a <> pgrp) waiting ->
  foreground_loop pgrp (waiting ++ pgrp :: later)
  = (replicate (length waiting) (Kill (- pgrp) SIGTTIN), true).
Proof.
  induction 1 as [|a waiting Ha _ IH]; simpl.
  - now rewrite Z.eqb_refl.
  - apply Z.eqb_neq in Ha. rewrite Ha. simpl. now rewrite IH.
Qed.

Lemma foreground_loop_stuck (pgrp : Z) (answers : list Z) :
  Forall (fun a => a <> pgrp) answers ->
  foreground_loop pgrp answers
  = (replicate (length answers) (Kill (- pgrp) SIGTTIN), false).
Proof.
  induction 1 as [|a answers Ha _ IH]; simpl; [reflexivity|].
  apply Z.eqb_neq in Ha. rewrite Ha. simpl. now rewrite IH.
Qed.

(** X18: init_shell.  Off a terminal it makes no call and leaves the shell
    non-interactive.  On a terminal it sends SIGTTIN to its own process
    group once for every time the shell is found in the background, and
    returns only when its group is the foreground group; it then hands the
    terminal to the group numbered by its process id, which is what
    shell_pgid holds afterwards, and saves the terminal modes. *)
Theorem init_shell_waits_for_the_foreground (tm : terminal) :
  (isatty tm STDIN_FILENO = false ->
   init_shell tm = ([], Some (mk_globals 0 false 0 0))) /\
  (forall waiting later,
     isatty tm STDIN_FILENO = true ->
     tcgetpgrp_answers tm = waiting ++ getpgrp tm :: later ->
     Forall (fun a => a <> getpgrp tm) waiting ->
     init_shell tm =
     (replicate (length waiting) (Kill (- getpgrp tm) SIGTTIN)
        ++ [Tcsetpgrp 0 (getpid tm); Tcgetattr 0],
      Some (mk_globals 0 true (getpid tm) (tcgetattr tm 0)))) /\
  (isatty tm STDIN_FILENO = true ->
   Forall (fun a => a <> getpgrp tm) (tcgetpgrp_answers tm) ->
   init_shell tm =
   (replicate (length (tcgetpgrp_answers tm)) (Kill (- getpgrp tm) SIGTTIN),
    None)).
Proof.
  unfold init_shell. split; [|split].
  - intros ->. reflexivity.
  - intros waiting later -> -> Hw.
    now rewrite (foreground_loop_waits _ _ _ Hw).
  - intros -> Hall. now rewrite (foreground_loop_stuck _ _ Hall).
Qed.

Lemma init_shell_waits_for_the_foreground_witness :
  init_shell (mk_terminal (fun _ => true) 40 41 [7; 7; 40; 9] (fun _ => 5))
  = ([Kill (-40) SIGTTIN; Kill (-40) SIGTTIN; Tcsetpgrp 0 41; Tcgetattr 0],
     Some (mk_globals 0 true 41 5)).
Proof.
  destruct (init_shell_waits_for_the_foreground
              (mk_terminal (fun _ => true) 40 41 [7; 7; 40; 9] (fun _ => 5)))
    as (_ & H & _).
  apply (H [7; 7] [9]); [reflexivity | reflexivity |].
  repeat constructor; discriminate.
Defined.

(** ** Sequences of lines *)

(** X19: pwd after cd.  After a cd that succeeds, pwd prints the name of
    the directory chdir led to; after a cd that fails, the error is
    reported and pwd prints the directory the shell was in before. *)
Theorem pwd_after_cd (a d : string) (t : tokens) (p : proc) :
  (forall d' s,
     fs_chdir (os p) (cwd p) d = inr d' ->
     fs_getcwd (os p) d' = inr s ->
     (cmd_cd [a; d] ;; cmd_pwd t) p =
     ([Chdir (Some d); Getcwd; Write stdout (s +:+ nl)],
      Ret 0 (set_cwd d' p))) /\
  (forall e s,
     fs_chdir (os p) (cwd p) d = inl e ->
     fs_getcwd (os p) (cwd p) = inr s ->
     (cmd_cd [a; d] ;; cmd_pwd t) p =
     ([Chdir (Some d); Write stderr ("cd: " +:+ strerror (os p) e +:+ nl);
       Getcwd; Write stdout (s +:+ nl)],
      Ret 0 (set_errno e p))).
Proof.
  split.
  - intros d' s Hc Hg. unfold bind. rewrite cmd_cd_two. unfold cd_report.
    rewrite Hc, cmd_pwd_run. simpl. now rewrite Hg.
  - intros e s Hc Hg. unfold bind. rewrite cmd_cd_two. unfold cd_report.
    rewrite Hc, cmd_pwd_run. simpl. now rewrite Hg.
Qed.

Lemma pwd_after_cd_witness :
  (cmd_cd ["cd"; "/tmp"] ;; cmd_pwd ["pwd"]) (demo_proc 7) =
  ([Chdir (Some "/tmp"); Getcwd; Write stdout ("/tmp" +:+ nl)],
   Ret 0 (set_cwd "/tmp" (demo_proc 7))) /\
  (cmd_cd ["cd"; "/nowhere"] ;; cmd_pwd ["pwd"])
    (mkProc (demo_os 7) "/home" 0 true) =
  ([Chdir (Some "/nowhere");
    Write stderr ("cd: No such file or directory" +:+ nl);
    Getcwd; Write stdout ("/home" +:+ nl)],
   Ret 0 (set_errno 2 (mkProc (demo_os 7) "/home" 0 true))).
Proof.
  split.
  - destruct (pwd_after_cd "cd" "/tmp" ["pwd"] (demo_proc 7)) as [H _].
    apply (H "/tmp" "/tmp"); reflexivity.
  - destruct (pwd_after_cd "cd" "/nowhere" ["pwd"]
                (mkProc (demo_os 7) "/home" 0 true)) as [_ H].
    apply (H 2 "/home"); reflexivity.
Defined.

Lemma bind_ext {A B} (m : sh A) (f g : A -> sh B) (p : proc) :
  (forall a q, f a q = g a q) -> bind m f p = bind m g p.
Proof.
  intros H. unfold bind. destruct (m p) as [tr [a q| s | |]]; try reflexivity.
  now rewrite H.
Qed.

(** X20: nothing is read after exit.  Once a line whose first token is
    exit is reached, the lines that follow it have no effect: the run of
    the loop is the same whatever they are. *)
Theorem lines_after_exit_are_ignored (tokenize : string -> tokens)
    (before more more' : list string) (line : string) (n : Z) (p : proc) :
  tokenize line !! 0%nat = Some "exit" ->
  main_loop tokenize n (before ++ line :: more) p
  = main_loop tokenize n (before ++ line :: more') p.
Proof.
  intros Hx. revert n p. induction before as [|l before IH]; intros n p.
  - cbn [app main_loop]. destruct (tokenize line) as [|x rest];
      [discriminate|]. injection Hx as ->. reflexivity.
  - cbn [app main_loop]. apply bind_ext. intros a q. apply IH.
Qed.

Lemma lines_after_exit_are_ignored_witness :
  main_loop (fun line => [line]) 0 (["pwd"] ++ "exit" :: ["cd"; "pwd"])
    (demo_proc 7)
  = main_loop (fun line => [line]) 0 (["pwd"] ++ "exit" :: []) (demo_proc 7).
Proof.
  apply (lines_after_exit_are_ignored (fun line => [line]) ["pwd"]
           ["cd"; "pwd"] [] "exit" 0 (demo_proc 7)).
  reflexivity.
Defined.
